(** * openmpt-charset: the CP437 remap of module messages and its report

    A shallow embedding of [openmpt-charset.cpp].  The program reads the
    [message_raw] metadata of each module file named on the command line,
    decodes it as UTF-8, sends every code point through the code page 437
    table, encodes the result again and prints the lines that differ in
    two columns.

    Layout: the data model and the functions of the source come first, in
    the order of the source file (with the termination arguments their
    loops need); then the notions the statements are written with; then
    the properties, the claims C1 to C10 among them; then further
    properties of the same functions, X1 to X16. *)

From Stdlib Require Import Strings.Byte Strings.String.
From Stdlib Require Import ZArith List Lia Bool Arith.
From Equations Require Import Equations.
Import ListNotations.

Local Open Scope Z_scope.

(** ** Data model *)

(** [std::string]: a sequence of [char]s.  A [char] is one byte; its value
    as an unsigned number is [byte_val]. *)
Definition bytes := list byte.

Definition byte_val (b : byte) : Z := Z.of_N (Byte.to_N b).

(** The [char] holding the low eight bits of [z]. *)
Definition byte_of_Z (z : Z) : byte :=
  match Byte.of_N (Z.to_N (z mod 256)) with
  | Some b => b
  | None => x00
  end.

(** A string literal of the source. *)
Definition lit (s : string) : bytes := list_byte_of_string s.

(** [std::uint32_t]: values are kept in [0, 2^32). *)
Definition uint32_max : Z := 0xFFFFFFFF.
Definition is_uint32 (c : Z) : Prop := 0 <= c <= uint32_max.

(** ** [cp437_to_unicode] (the switch of the source, case by case) *)

Definition cp437_to_unicode (c : Z) : Z :=
  match c with
  | 0x00 => 0x2400 | 0x01 => 0x263A | 0x02 => 0x263B | 0x03 => 0x2665
  | 0x04 => 0x2666 | 0x05 => 0x2663 | 0x06 => 0x2660 | 0x07 => 0x2022
  | 0x08 => 0x25D8 | 0x09 => 0x25CB | 0x0B => 0x2642 | 0x0C => 0x2640
  | 0x0D => 0x266A | 0x0E => 0x266B | 0x0F => 0x263C | 0x10 => 0x25BA
  | 0x11 => 0x25C4 | 0x12 => 0x2195 | 0x13 => 0x203C | 0x14 => 0x00B6
  | 0x15 => 0x00A7 | 0x16 => 0x25AC | 0x17 => 0x21A8 | 0x18 => 0x2191
  | 0x19 => 0x2193 | 0x1A => 0x2192 | 0x1B => 0x2190 | 0x1C => 0x221F
  | 0x1D => 0x2194 | 0x1E => 0x25B2 | 0x1F => 0x25BC | 0x7F => 0x2302
  | 0x80 => 0x00C7 | 0x81 => 0x00FC | 0x82 => 0x00E9 | 0x83 => 0x00E2
  | 0x84 => 0x00E4 | 0x85 => 0x00E0 | 0x86 => 0x00E5 | 0x87 => 0x00E7
  | 0x88 => 0x00EA | 0x89 => 0x00EB | 0x8A => 0x00E8 | 0x8B => 0x00EF
  | 0x8C => 0x00EE | 0x8D => 0x00EC | 0x8E => 0x00C4 | 0x8F => 0x00C5
  | 0x90 => 0x00C9 | 0x91 => 0x00E6 | 0x92 => 0x00C6 | 0x93 => 0x00F4
  | 0x94 => 0x00F6 | 0x95 => 0x00F2 | 0x96 => 0x00FB | 0x97 => 0x00F9
  | 0x98 => 0x00FF | 0x99 => 0x00D6 | 0x9A => 0x00DC | 0x9B => 0x00A2
  | 0x9C => 0x00A3 | 0x9D => 0x00A5 | 0x9E => 0x20A7 | 0x9F => 0x0192
  | 0xA0 => 0x00E1 | 0xA1 => 0x00ED | 0xA2 => 0x00F3 | 0xA3 => 0x00FA
  | 0xA4 => 0x00F1 | 0xA5 => 0x00D1 | 0xA6 => 0x00AA | 0xA7 => 0x00BA
  | 0xA8 => 0x00BF | 0xA9 => 0x2310 | 0xAA => 0x00AC | 0xAB => 0x00BD
  | 0xAC => 0x00BC | 0xAD => 0x00A1 | 0xAE => 0x00AB | 0xAF => 0x00BB
  | 0xB0 => 0x2591 | 0xB1 => 0x2592 | 0xB2 => 0x2593 | 0xB3 => 0x2502
  | 0xB4 => 0x2524 | 0xB5 => 0x2561 | 0xB6 => 0x2562 | 0xB7 => 0x2556
  | 0xB8 => 0x2555 | 0xB9 => 0x2563 | 0xBA => 0x2551 | 0xBB => 0x2557
  | 0xBC => 0x255D | 0xBD => 0x255C | 0xBE => 0x255B | 0xBF => 0x2510
  | 0xC0 => 0x2514 | 0xC1 => 0x2534 | 0xC2 => 0x252C | 0xC3 => 0x251C
  | 0xC4 => 0x2500 | 0xC5 => 0x253C | 0xC6 => 0x255E | 0xC7 => 0x255F
  | 0xC8 => 0x255A | 0xC9 => 0x2554 | 0xCA => 0x2569 | 0xCB => 0x2566
  | 0xCC => 0x2560 | 0xCD => 0x2550 | 0xCE => 0x256C | 0xCF => 0x2567
  | 0xD0 => 0x2568 | 0xD1 => 0x2564 | 0xD2 => 0x2565 | 0xD3 => 0x2559
  | 0xD4 => 0x2558 | 0xD5 => 0x2552 | 0xD6 => 0x2553 | 0xD7 => 0x256B
  | 0xD8 => 0x256A | 0xD9 => 0x2518 | 0xDA => 0x250C | 0xDB => 0x2588
  | 0xDC => 0x2584 | 0xDD => 0x258C | 0xDE => 0x2590 | 0xDF => 0x2580
  | 0xE0 => 0x03B1 | 0xE1 => 0x00DF | 0xE2 => 0x0393 | 0xE3 => 0x03C0
  | 0xE4 => 0x03A3 | 0xE5 => 0x03C3 | 0xE6 => 0x00B5 | 0xE7 => 0x03C4
  | 0xE8 => 0x03A6 | 0xE9 => 0x0398 | 0xEA => 0x03A9 | 0xEB => 0x03B4
  | 0xEC => 0x221E | 0xED => 0x03C6 | 0xEE => 0x03B5 | 0xEF => 0x2229
  | 0xF0 => 0x2261 | 0xF1 => 0x00B1 | 0xF2 => 0x2265 | 0xF3 => 0x2264
  | 0xF4 => 0x2320 | 0xF5 => 0x2321 | 0xF6 => 0x00F7 | 0xF7 => 0x2248
  | 0xF8 => 0x00B0 | 0xF9 => 0x2219 | 0xFA => 0x00B7 | 0xFB => 0x221A
  | 0xFC => 0x207F | 0xFD => 0x00B2 | 0xFE => 0x25A0 | 0xFF => 0x00A0
  | _ => c
  end.

(** The upper half of code page 437 as the code page is published (the
    mapping file CP437.TXT of the Unicode Consortium; rows 0x80, 0x90, ...,
    0xF0, sixteen entries each).  This is the reference the switch is
    compared with; the model of the program does not use it. *)
Definition cp437_upper_half : list Z :=
  [ 0x00C7; 0x00FC; 0x00E9; 0x00E2; 0x00E4; 0x00E0; 0x00E5; 0x00E7;
    0x00EA; 0x00EB; 0x00E8; 0x00EF; 0x00EE; 0x00EC; 0x00C4; 0x00C5;
    0x00C9; 0x00E6; 0x00C6; 0x00F4; 0x00F6; 0x00F2; 0x00FB; 0x00F9;
    0x00FF; 0x00D6; 0x00DC; 0x00A2; 0x00A3; 0x00A5; 0x20A7; 0x0192;
    0x00E1; 0x00ED; 0x00F3; 0x00FA; 0x00F1; 0x00D1; 0x00AA; 0x00BA;
    0x00BF; 0x2310; 0x00AC; 0x00BD; 0x00BC; 0x00A1; 0x00AB; 0x00BB;
    0x2591; 0x2592; 0x2593; 0x2502; 0x2524; 0x2561; 0x2562; 0x2556;
    0x2555; 0x2563; 0x2551; 0x2557; 0x255D; 0x255C; 0x255B; 0x2510;
    0x2514; 0x2534; 0x252C; 0x251C; 0x2500; 0x253C; 0x255E; 0x255F;
    0x255A; 0x2554; 0x2569; 0x2566; 0x2560; 0x2550; 0x256C; 0x2567;
    0x2568; 0x2564; 0x2565; 0x2559; 0x2558; 0x2552; 0x2553; 0x256B;
    0x256A; 0x2518; 0x250C; 0x2588; 0x2584; 0x258C; 0x2590; 0x2580;
    0x03B1; 0x00DF; 0x0393; 0x03C0; 0x03A3; 0x03C3; 0x00B5; 0x03C4;
    0x03A6; 0x0398; 0x03A9; 0x03B4; 0x221E; 0x03C6; 0x03B5; 0x2229;
    0x2261; 0x00B1; 0x2265; 0x2264; 0x2320; 0x2321; 0x00F7; 0x2248;
    0x00B0; 0x2219; 0x00B7; 0x221A; 0x207F; 0x00B2; 0x25A0; 0x00A0 ].

(** The documented scalar of byte [b], for [b] in the upper half. *)
Definition cp437_documented (b : Z) : Z :=
  nth (Z.to_nat (b - 0x80)) cp437_upper_half 0.

(** ** Exceptions and the effects of the program *)

(** The exception classes the program meets.  All three derive from
    [std::exception]. *)
Inductive exn : Type :=
| range_error (what : bytes)     (* std::range_error, from std::wstring_convert *)
| runtime_error (what : bytes)   (* std::runtime_error, thrown by check_messages *)
| module_error (what : bytes).   (* what the openmpt::module constructor throws *)

Definition what (e : exn) : bytes :=
  match e with
  | range_error w | runtime_error w | module_error w => w
  end.

(** ** The codec: [utf8_to_codepoints] and [codepoints_to_utf8]

    Both functions are one call of [std::wstring_convert].  Two descriptions
    of the converter follow: first the contract of spec 4.1, a strict UTF-8
    codec, which here says what well-formed input is; then the converter of
    libstdc++, which is what [utf8_to_codepoints] and [codepoints_to_utf8]
    are defined with.  The two agree on well-formed input (lemmas
    [utf8_to_codepoints_well_formed] and [codepoints_to_utf8_scalars]). *)

(** *** The contract of the specification *)

Definition is_continuation (b : byte) : bool :=
  (0x80 <=? byte_val b) && (byte_val b <=? 0xBF).

Definition is_surrogate (c : Z) : bool := (0xD800 <=? c) && (c <=? 0xDFFF).

(** A Unicode scalar value: at most 0x10FFFF and no surrogate. *)
Definition is_scalar (c : Z) : bool :=
  (0 <=? c) && (c <=? 0x10FFFF) && negb (is_surrogate c).

(** Modelled from the spec: [std::wstring_convert<std::codecvt_utf8<char32_t>,
    char32_t>::from_bytes] is the C++ standard library and not part of the
    repository.  The spec's contract (4.1): the input is read strictly as
    UTF-8, and the conversion fails on a malformed or missing continuation
    byte, an overlong encoding, a surrogate and a value above 0x10FFFF. *)
Fixpoint from_bytes (s : bytes) : option (list Z) :=
  match s with
  | [] => Some []
  | b0 :: s1 =>
    let v0 := byte_val b0 in
    if v0 <? 0x80 then
      option_map (cons v0) (from_bytes s1)
    else if v0 <? 0xC0 then None
    else if v0 <? 0xE0 then
      match s1 with
      | b1 :: s2 =>
        let c := (v0 - 0xC0) * 0x40 + (byte_val b1 - 0x80) in
        if is_continuation b1 && (0x80 <=? c)
        then option_map (cons c) (from_bytes s2)
        else None
      | _ => None
      end
    else if v0 <? 0xF0 then
      match s1 with
      | b1 :: b2 :: s3 =>
        let c := (v0 - 0xE0) * 0x1000 + (byte_val b1 - 0x80) * 0x40
                 + (byte_val b2 - 0x80) in
        if is_continuation b1 && is_continuation b2
           && (0x800 <=? c) && negb (is_surrogate c)
        then option_map (cons c) (from_bytes s3)
        else None
      | _ => None
      end
    else if v0 <? 0xF8 then
      match s1 with
      | b1 :: b2 :: b3 :: s4 =>
        let c := (v0 - 0xF0) * 0x40000 + (byte_val b1 - 0x80) * 0x1000
                 + (byte_val b2 - 0x80) * 0x40 + (byte_val b3 - 0x80) in
        if is_continuation b1 && is_continuation b2 && is_continuation b3
           && (0x10000 <=? c) && (c <=? 0x10FFFF)
        then option_map (cons c) (from_bytes s4)
        else None
      | _ => None
      end
    else None
  end.

(** Modelled from the spec: the UTF-8 form of one scalar value, as
    [std::wstring_convert::to_bytes] (standard library, not part of the
    repository) writes it; the conversion fails on a surrogate and on a value
    outside the Unicode range. *)
Definition to_bytes1 (c : Z) : option bytes :=
  if negb (is_scalar c) then None
  else if c <? 0x80 then Some [byte_of_Z c]
  else if c <? 0x800 then
    Some [byte_of_Z (0xC0 + c / 0x40); byte_of_Z (0x80 + c mod 0x40)]
  else if c <? 0x10000 then
    Some [byte_of_Z (0xE0 + c / 0x1000);
          byte_of_Z (0x80 + (c / 0x40) mod 0x40);
          byte_of_Z (0x80 + c mod 0x40)]
  else
    Some [byte_of_Z (0xF0 + c / 0x40000);
          byte_of_Z (0x80 + (c / 0x1000) mod 0x40);
          byte_of_Z (0x80 + (c / 0x40) mod 0x40);
          byte_of_Z (0x80 + c mod 0x40)].

(** [to_bytes] on a whole [std::u32string]: the forms of its scalars one
    after the other, or a failure as soon as one scalar has none. *)
Fixpoint to_bytes (cs : list Z) : option bytes :=
  match cs with
  | [] => Some []
  | c :: cs' =>
    match to_bytes1 c, to_bytes cs' with
    | Some b, Some bs => Some (b ++ bs)
    | _, _ => None
    end
  end.

(** *** The converter the program runs with

    The C++ standard library is not part of the repository.  The
    definitions below follow libstdc++ (version 12):
    [wstring_convert::from_bytes] and [to_bytes] of [bits/locale_conv.h]
    over the UTF-8 facet [std::codecvt_utf8<char32_t>].
    The library differs from the contract of spec 4.1 in two ways: an input
    that ends inside a multi-byte sequence is no error, the scalars decoded
    before it are returned; and surrogates are decoded and encoded like any
    other scalar of three bytes. *)

(** [max_code_point], the largest value the facet lets through. *)
Definition max_code_point : Z := 0x10FFFF.

(** [std::codecvt_base::result] ([noconv] does not occur with this facet). *)
Inductive codecvt_result : Type :=
| codecvt_ok
| codecvt_partial
| codecvt_error.

(** One round of the loop of the decoder: the scalar [c] just read goes to
    the output and the loop goes on with [rest], unless [c] is above
    [max_code_point], which ends the conversion with an error. *)
Definition decoded (c : Z) (rest : codecvt_result * list Z)
  : codecvt_result * list Z :=
  if c <=? max_code_point then (fst rest, c :: snd rest)
  else (codecvt_error, []).

(** The decoder of the facet.  A lead byte below 0xC2 or above 0xF4, a
    byte that is no continuation byte where one is due, an overlong form
    and a form of a value above 0x10FFFF are errors; a sequence that the
    end of the input cuts short is [partial] (the test for the missing
    bytes comes before any test of the bytes that are there); the output is
    what was decoded up to that point. *)
Fixpoint ucs4_in (from : bytes) : codecvt_result * list Z :=
  match from with
  | [] => (codecvt_ok, [])
  | b1 :: s1 =>
    let c1 := byte_val b1 in
    if c1 <? 0x80 then decoded c1 (ucs4_in s1)
    else if c1 <? 0xC2 then (codecvt_error, [])
    else if c1 <? 0xE0 then
      match s1 with
      | b2 :: s2 =>
        let c2 := byte_val b2 in
        if negb (is_continuation b2) then (codecvt_error, [])
        else decoded (c1 * 0x40 + c2 - 0x3080) (ucs4_in s2)
      | _ => (codecvt_partial, [])
      end
    else if c1 <? 0xF0 then
      match s1 with
      | b2 :: b3 :: s3 =>
        let c2 := byte_val b2 in
        let c3 := byte_val b3 in
        if negb (is_continuation b2) then (codecvt_error, [])
        else if (c1 =? 0xE0) && (c2 <? 0xA0) then (codecvt_error, [])
        else if negb (is_continuation b3) then (codecvt_error, [])
        else decoded (c1 * 0x1000 + c2 * 0x40 + c3 - 0xE2080) (ucs4_in s3)
      | _ => (codecvt_partial, [])
      end
    else if c1 <? 0xF5 then
      match s1 with
      | b2 :: b3 :: b4 :: s4 =>
        let c2 := byte_val b2 in
        let c3 := byte_val b3 in
        let c4 := byte_val b4 in
        if negb (is_continuation b2) then (codecvt_error, [])
        else if (c1 =? 0xF0) && (c2 <? 0x90) then (codecvt_error, [])
        else if (c1 =? 0xF4) && (0x90 <=? c2) then (codecvt_error, [])
        else if negb (is_continuation b3) then (codecvt_error, [])
        else if negb (is_continuation b4) then (codecvt_error, [])
        else decoded (c1 * 0x40000 + c2 * 0x1000 + c3 * 0x40 + c4 - 0x3C82080)
                     (ucs4_in s4)
      | _ => (codecvt_partial, [])
      end
    else (codecvt_error, [])
  end.

(** [wstring_convert::from_bytes]: [None] stands for the
    [std::range_error] it throws, which it does on [error] only. *)
Definition wstring_convert_from_bytes (s : bytes) : option (list Z) :=
  match ucs4_in s with
  | (codecvt_error, _) => None
  | (_, utf32) => Some utf32
  end.

(** The bytes the facet writes for a scalar up to [max_code_point]. *)
Definition write_utf8_code_point (c : Z) : bytes :=
  if c <? 0x80 then [byte_of_Z c]
  else if c <=? 0x7FF then
    [byte_of_Z (c / 0x40 + 0xC0); byte_of_Z (c mod 0x40 + 0x80)]
  else if c <=? 0xFFFF then
    [byte_of_Z (c / 0x1000 + 0xE0);
     byte_of_Z ((c / 0x40) mod 0x40 + 0x80);
     byte_of_Z (c mod 0x40 + 0x80)]
  else
    [byte_of_Z (c / 0x40000 + 0xF0);
     byte_of_Z ((c / 0x1000) mod 0x40 + 0x80);
     byte_of_Z ((c / 0x40) mod 0x40 + 0x80);
     byte_of_Z (c mod 0x40 + 0x80)].

(** The encoder of the facet: a value above [max_code_point] is an error,
    everything else is written, surrogates too. *)
Fixpoint ucs4_out (from : list Z) : codecvt_result * bytes :=
  match from with
  | [] => (codecvt_ok, [])
  | c :: from' =>
    if max_code_point <? c then (codecvt_error, [])
    else (fst (ucs4_out from'), write_utf8_code_point c ++ snd (ucs4_out from'))
  end.

(** [wstring_convert::to_bytes]: [None] stands for the [std::range_error]
    it throws. *)
Definition wstring_convert_to_bytes (utf32 : list Z) : option bytes :=
  match ucs4_out utf32 with
  | (codecvt_error, _) => None
  | (_, s) => Some s
  end.

Example wstring_convert_cut_tail :
  wstring_convert_from_bytes [x61; xc3] = Some [0x61].
Proof. reflexivity. Qed.

Example wstring_convert_cut_after_newline :
  wstring_convert_from_bytes [x61; x0a; xc2] = Some [0x61; 0x0A].
Proof. reflexivity. Qed.

Example wstring_convert_stray_byte :
  wstring_convert_from_bytes [x61; x81; x62] = None.
Proof. reflexivity. Qed.

Example wstring_convert_surrogate :
  wstring_convert_from_bytes [xed; xa0; x80] = Some [0xD800] /\
  wstring_convert_to_bytes [0xD800] = Some [xed; xa0; x80].
Proof. split; reflexivity. Qed.

Example wstring_convert_too_big :
  wstring_convert_to_bytes [0x61; 0x110000] = None.
Proof. reflexivity. Qed.

Example from_bytes_cafe :
  from_bytes [x63; x61; x66; xc3; xa9] = Some [0x63; 0x61; 0x66; 0xE9].
Proof. reflexivity. Qed.

Example to_bytes_euro : to_bytes [0x20AC; 0x1F600] = Some [xe2; x82; xac; xf0; x9f; x98; x80].
Proof. reflexivity. Qed.
Example from_bytes_euro : from_bytes [xe2; x82; xac; xf0; x9f; x98; x80] = Some [0x20AC; 0x1F600].
Proof. reflexivity. Qed.

(** ** [split] *)

(** A value together with the proof that it is the value of [a]; lets a
    [with] clause remember what it matched on. *)
Definition inspect {A} (a : A) : {b : A | a = b} := exist _ a eq_refl.

(** The characters [std::getline] extracts from the unread part [s] of the
    stream: everything before the first delimiter goes to the token, the
    delimiter itself is extracted and dropped, and the rest stays unread. *)
Fixpoint getline_chars (s : bytes) (delimiter : byte) : bytes * bytes :=
  match s with
  | [] => ([], [])
  | c :: s' =>
    if Byte.eqb c delimiter then ([], s')
    else let (token, rest) := getline_chars s' delimiter in (c :: token, rest)
  end.

(** [std::getline(ss, token, delimiter)] as a condition.  The stream is
    modelled by its unread characters: the call fails, and the stream turns
    false, when no character at all could be extracted, that is when nothing
    is left to read (whether or not [eofbit] was set by the call before);
    otherwise it gives the token and the characters still unread. *)
Definition getline (s : bytes) (delimiter : byte) : option (bytes * bytes) :=
  match s with
  | [] => None
  | _ :: _ => Some (getline_chars s delimiter)
  end.

Lemma getline_chars_rest_le (s : bytes) (d : byte) :
  (length (snd (getline_chars s d)) <= length s)%nat.
Proof.
  induction s as [|c s IH]; simpl; [lia|].
  destruct (Byte.eqb c d); simpl; [lia|].
  destruct (getline_chars s d); simpl in *; lia.
Qed.

Lemma getline_rest_lt (s : bytes) (d : byte) token rest :
  getline s d = Some (token, rest) -> (length rest < length s)%nat.
Proof.
  destruct s as [|c s]; simpl; [discriminate|].
  intros H. injection H as H.
  pose proof (getline_chars_rest_le s d) as Hle.
  destruct (Byte.eqb c d).
  - injection H as _ <-. lia.
  - destruct (getline_chars s d) as [t r]. injection H as _ <-. simpl in Hle. lia.
Qed.

(** The loop [while (std::getline(ss, token, delimiter)) tokens.push_back(token)]
    on the unread part [ss] of the stream. *)
Equations? split_loop (ss : bytes) (delimiter : byte) (tokens : list bytes)
  : list bytes by wf (length ss) lt :=
  split_loop ss delimiter tokens with inspect (getline ss delimiter) := {
    | exist _ (Some (token, rest)) Hget =>
        split_loop rest delimiter (tokens ++ [token])
    | exist _ None _ => tokens }.
Proof. eapply getline_rest_lt; eassumption. Qed.

Definition split (s : bytes) (delimiter : byte) : list bytes :=
  split_loop s delimiter [].

Definition newline : byte := x0a.

Example split_ab : split [x61; x0a; x62] newline = [[x61]; [x62]].
Proof. reflexivity. Qed.

Example split_trailing : split [x61; x0a; x0a] newline = [[x61]; []].
Proof. reflexivity. Qed.

(** ** [get_grapheme_count] *)

Section GraphemeCount.

(** Whether plain [char] is a signed type is left to the platform. *)
Variable char_is_signed : bool.

(** [*it] promoted to [int]. *)
Definition char_to_int (b : byte) : Z :=
  if char_is_signed && (0x80 <=? byte_val b)
  then byte_val b - 0x100 else byte_val b.

(** The condition of the inner loop, [((c << bytes) & 0b11000000) ==
    0b10000000] with [c] the promoted [*it].  The shift is taken on the
    unbounded integer: the test reads bits 6 and 7 of the result only, and
    the loop stops long before 32 bits are used up. *)
Definition next_is_continuation (c : Z) (nbytes : nat) : bool :=
  Z.land (Z.shiftl c (Z.of_nat nbytes)) 0xC0 =? 0x80.

Lemma next_is_continuation_lt (c : Z) (nbytes : nat) :
  next_is_continuation c nbytes = true -> (nbytes < 8)%nat.
Proof.
  unfold next_is_continuation. intros H. apply Z.eqb_eq in H.
  destruct (Nat.lt_ge_cases nbytes 8) as [Hlt|Hge]; [exact Hlt|exfalso].
  assert (Hbit : Z.testbit (Z.land (Z.shiftl c (Z.of_nat nbytes)) 0xC0) 7 = true)
    by (rewrite H; reflexivity).
  rewrite Z.land_spec, Z.shiftl_spec, Z.testbit_neg_r in Hbit by lia.
  discriminate.
Qed.

(** The inner loop [while (...) bytes++], started with [bytes = nbytes]. *)
Equations? sequence_bytes (c : Z) (nbytes : nat) : nat by wf (8 - nbytes)%nat lt :=
  sequence_bytes c nbytes with inspect (next_is_continuation c nbytes) := {
    | exist _ true Hnext => sequence_bytes c (S nbytes)
    | exist _ false _ => nbytes }.
Proof.
  apply next_is_continuation_lt in Hnext.
  do 8 (destruct nbytes as [|nbytes]; [lia|]). lia.
Qed.

Lemma sequence_bytes_ge (c : Z) (nbytes : nat) :
  (nbytes <= sequence_bytes c nbytes)%nat.
Proof.
  funelim (sequence_bytes c nbytes); lia.
Qed.

(** How far [it += bytes] moves the iterator that points at [b]. *)
Definition advance (b : byte) : nat :=
  if negb (Z.land (char_to_int b) 0x80 =? 0)
  then sequence_bytes (char_to_int b) 1
  else 1%nat.

Lemma advance_pos (b : byte) : (1 <= advance b)%nat.
Proof.
  unfold advance. destruct (negb _); [apply sequence_bytes_ge | lia].
Qed.

(** How a call ends: it returns the count, or the iterator has moved beyond
    [s.end()], after which [it != s.end()] holds for good and [*it] reads
    outside the string (undefined behaviour). *)
Inductive count_result : Type :=
| Counted (n : nat)
| PastTheEnd (it : nat).

(** The outer loop; the iterator is its offset [it] from [s.begin()].
    [nth_error s it] is [None] when the iterator is at [s.end()], where the
    test [it != s.end()] ends the loop, and when it is beyond, where the
    test lets the loop go on. *)
Equations? count_loop (s : bytes) (it n : nat) : count_result
  by wf (length s - it)%nat lt :=
  count_loop s it n with inspect (nth_error s it) := {
    | exist _ (Some b) Hit => count_loop s (it + advance b) (S n)
    | exist _ None _ => if (it =? length s)%nat then Counted n else PastTheEnd it }.
Proof.
  pose proof (advance_pos b).
  assert (it < length s)%nat by (apply nth_error_Some; congruence).
  lia.
Qed.

Definition get_grapheme_count (s : bytes) : count_result := count_loop s 0 0.

End GraphemeCount.

Example count_abc : get_grapheme_count true (lit "abc") = Counted 3.
Proof. reflexivity. Qed.
Example count_cafe : get_grapheme_count true [x63; x61; x66; xc3; xa9] = Counted 4.
Proof. reflexivity. Qed.
Example count_c2 : get_grapheme_count true [xc2] = PastTheEnd 2.
Proof. reflexivity. Qed.
Example count_euro : get_grapheme_count false [xe2; x82; xac] = Counted 3.
Proof. reflexivity. Qed.

(** ** Effects: the two output streams, exceptions, undefined behaviour *)

Record io : Type := { cout : bytes; cerr : bytes }.

(** How a computation ends: a value, a thrown exception, or undefined
    behaviour. *)
Inductive result (A : Type) : Type :=
| Val (a : A)
| Exn (e : exn)
| Undefined.
Arguments Val {A} a.
Arguments Exn {A} e.
Arguments Undefined {A}.

Definition M (A : Type) : Type := io -> result A * io.

Definition ret {A} (a : A) : M A := fun s => (Val a, s).

Definition bind {A B} (m : M A) (k : A -> M B) : M B :=
  fun s =>
    match m s with
    | (Val a, s') => k a s'
    | (Exn e, s') => (Exn e, s')
    | (Undefined, s') => (Undefined, s')
    end.

Definition throw {A} (e : exn) : M A := fun s => (Exn e, s).

Definition undefined {A} : M A := fun s => (Undefined, s).

(** [try { body } catch (const std::exception &e) { handler }]: every class
    of [exn] derives from [std::exception], so the handler takes them all. *)
Definition try_catch {A} (body : M A) (handler : exn -> M A) : M A :=
  fun s =>
    match body s with
    | (Exn e, s') => handler e s'
    | r => r
    end.

Definition lift {A} (r : result A) : M A := fun s => (r, s).

Definition of_sum {A} (r : exn + A) : result A :=
  match r with
  | inl e => Exn e
  | inr a => Val a
  end.

(** [std::cout << text] and [std::cerr << text]. *)
Definition write_cout (text : bytes) : M unit :=
  fun s => (Val tt, {| cout := cout s ++ text; cerr := cerr s |}).
Definition write_cerr (text : bytes) : M unit :=
  fun s => (Val tt, {| cout := cout s; cerr := cerr s ++ text |}).

Declare Scope prog_scope.
Delimit Scope prog_scope with prog.
Notation "x <- m ;; k" := (bind m (fun x => k))
  (at level 61, m at next level, right associativity) : prog_scope.
Notation "m ;; k" := (bind m (fun _ => k))
  (at level 61, right associativity) : prog_scope.

(** A [for] loop over the values [l] of its counter. *)
Fixpoint for_each {A} (l : list A) (body : A -> M unit) : M unit :=
  match l with
  | [] => ret tt
  | x :: l' => (body x ;; for_each l' body)%prog
  end.

Definition bytes_eqb (a b : bytes) : bool :=
  if list_eq_dec Byte.byte_eq_dec a b then true else false.

(** [std::endl] writes a newline (and flushes). *)
Definition endl : bytes := [newline].

(** ** The program *)

(** [static bool diff_only = true;] is never assigned to. *)
Definition diff_only : bool := true.

Section Program.

Variable char_is_signed : bool.

(** The text of the [std::range_error] thrown by [from_bytes] and by
    [to_bytes]; the standard leaves it to the library. *)
Variable from_bytes_what to_bytes_what : bytes.

(** libopenmpt, the external collaborator: constructing [openmpt::module]
    from the file of a given name gives a module or throws, and
    [get_metadata] looks up a key of a module. *)
Variable module : Type.
Variable open_module : bytes -> exn + module.
Variable get_metadata : module -> bytes -> bytes.

Definition utf8_to_codepoints (s : bytes) : result (list Z) :=
  match wstring_convert_from_bytes s with
  | Some utf32 => Val utf32
  | None => Exn (range_error from_bytes_what)
  end.

Definition codepoints_to_utf8 (codepoints : list Z) : result bytes :=
  match wstring_convert_to_bytes codepoints with
  | Some s => Val s
  | None => Exn (range_error to_bytes_what)
  end.

(** The body of the [for] loop of [check_messages] at index [i]. *)
Definition report_line (message_lines new_message_lines : list bytes) (i : nat)
  : M unit :=
  match nth_error message_lines i, nth_error new_message_lines i with
  | Some line, Some new_line =>
    if diff_only && bytes_eqb line new_line then ret tt
    else
      match get_grapheme_count char_is_signed line with
      | Counted graphemes =>
        (write_cout line ;;
         (if (graphemes <? 80)%nat
          then write_cout (repeat " "%byte (80 - graphemes))
          else ret tt) ;;
         write_cout (lit " | ") ;; write_cout new_line ;; write_cout endl)%prog
      | PastTheEnd _ => undefined
      end
  | _, _ => undefined
  end.

(** [check_messages] from the point where both messages are at hand
    (source lines 158 to 186); the spec calls this part
    [compare_and_report]. *)
Definition compare_and_report (filename message new_message : bytes) : M unit :=
  let message_lines := split message newline in
  let new_message_lines := split new_message newline in
  if negb (length message_lines =? length new_message_lines)%nat then
    throw (runtime_error (lit "internal error: size mismatch"))
  else if bytes_eqb message new_message then ret tt
  else
    (write_cout (lit "Difference in " ++ filename ++ lit ":" ++ [newline; newline]) ;;
     for_each (seq 0 (length message_lines))
              (report_line message_lines new_message_lines) ;;
     write_cout endl)%prog.

Definition check_messages (filename : bytes) (mod_ : module) : M unit :=
  let message := get_metadata mod_ (lit "message_raw") in
  match message with
  | [] => ret tt
  | _ :: _ =>
    (codepoints <- lift (utf8_to_codepoints message) ;;
     let converted := map cp437_to_unicode codepoints in
     new_message <- lift (codepoints_to_utf8 converted) ;;
     compare_and_report filename message new_message)%prog
  end.

(** The [catch] clause of [process_file]. *)
Definition report_failure (filename : bytes) (e : exn) : M unit :=
  write_cerr (lit "can't open " ++ filename ++ lit ": " ++ what e ++ endl).

Definition process_file (filename : bytes) : M unit :=
  try_catch
    (mod_ <- lift (of_sum (open_module filename)) ;;
     check_messages filename mod_)%prog
    (report_failure filename).

(** [main]: [argv] holds the program name and then the file names. *)
Definition main (argv : list bytes) : M Z :=
  (for_each (tl argv) process_file ;; ret 0)%prog.

End Program.

(** * Notions used in the statements *)

(** ** Scalars and byte sequences *)

(** Scalars on which a second pass through the table does nothing: those
    above 0xFF, printable ASCII and the newline. *)
Definition cp437_stable (c : Z) : Prop :=
  0xFF < c \/ 0x20 <= c <= 0x7E \/ c = 0x0A.

(** The scalars the spec calls valid: within the Unicode range and no
    surrogate. *)
Definition valid_scalar (c : Z) : Prop :=
  0 <= c <= 0x10FFFF /\ ~ (0xD800 <= c <= 0xDFFF).

(** [decodes s cs]: [s] is the concatenation of the UTF-8 forms of the
    scalars [cs]. *)
Inductive decodes : bytes -> list Z -> Prop :=
| decodes_nil : decodes [] []
| decodes_cons (c : Z) (bs rest : bytes) (cs : list Z) :
    to_bytes1 c = Some bs -> decodes rest cs -> decodes (bs ++ rest) (c :: cs).

(** The UTF-8 form of one scalar: one byte below 0x80, or a lead byte and
    one, two or three continuation bytes. *)
Inductive utf8_form : bytes -> Prop :=
| form1 (b0 : byte) : byte_val b0 < 0x80 -> utf8_form [b0]
| form2 (b0 b1 : byte) :
    0xC0 <= byte_val b0 < 0xE0 -> is_continuation b1 = true ->
    utf8_form [b0; b1]
| form3 (b0 b1 b2 : byte) :
    0xE0 <= byte_val b0 < 0xF0 ->
    is_continuation b1 = true -> is_continuation b2 = true ->
    utf8_form [b0; b1; b2]
| form4 (b0 b1 b2 b3 : byte) :
    0xF0 <= byte_val b0 < 0xF8 ->
    is_continuation b1 = true -> is_continuation b2 = true ->
    is_continuation b3 = true ->
    utf8_form [b0; b1; b2; b3].

(** The byte [b] lies between [lo] and [hi]. *)
Definition in_range (b : byte) (lo hi : Z) : Prop := lo <= byte_val b <= hi.

(** Well-formed UTF-8 byte sequences, row by row of table 3-7 of the
    Unicode Standard. *)
Inductive well_formed_utf8 : bytes -> Prop :=
| wf_nil : well_formed_utf8 []
| wf_ascii b0 rest :
    in_range b0 0x00 0x7F -> well_formed_utf8 rest ->
    well_formed_utf8 (b0 :: rest)
| wf_two b0 b1 rest :
    in_range b0 0xC2 0xDF -> in_range b1 0x80 0xBF -> well_formed_utf8 rest ->
    well_formed_utf8 (b0 :: b1 :: rest)
| wf_three_e0 b0 b1 b2 rest :
    in_range b0 0xE0 0xE0 -> in_range b1 0xA0 0xBF -> in_range b2 0x80 0xBF ->
    well_formed_utf8 rest -> well_formed_utf8 (b0 :: b1 :: b2 :: rest)
| wf_three b0 b1 b2 rest :
    in_range b0 0xE1 0xEC \/ in_range b0 0xEE 0xEF ->
    in_range b1 0x80 0xBF -> in_range b2 0x80 0xBF ->
    well_formed_utf8 rest -> well_formed_utf8 (b0 :: b1 :: b2 :: rest)
| wf_three_ed b0 b1 b2 rest :
    in_range b0 0xED 0xED -> in_range b1 0x80 0x9F -> in_range b2 0x80 0xBF ->
    well_formed_utf8 rest -> well_formed_utf8 (b0 :: b1 :: b2 :: rest)
| wf_four_f0 b0 b1 b2 b3 rest :
    in_range b0 0xF0 0xF0 -> in_range b1 0x90 0xBF -> in_range b2 0x80 0xBF ->
    in_range b3 0x80 0xBF ->
    well_formed_utf8 rest -> well_formed_utf8 (b0 :: b1 :: b2 :: b3 :: rest)
| wf_four b0 b1 b2 b3 rest :
    in_range b0 0xF1 0xF3 -> in_range b1 0x80 0xBF -> in_range b2 0x80 0xBF ->
    in_range b3 0x80 0xBF ->
    well_formed_utf8 rest -> well_formed_utf8 (b0 :: b1 :: b2 :: b3 :: rest)
| wf_four_f4 b0 b1 b2 b3 rest :
    in_range b0 0xF4 0xF4 -> in_range b1 0x80 0x8F -> in_range b2 0x80 0xBF ->
    in_range b3 0x80 0xBF ->
    well_formed_utf8 rest -> well_formed_utf8 (b0 :: b1 :: b2 :: b3 :: rest).

(** ** Lines *)

(** The number of tokens [split] gets out of the unread part [s];
    [pending] tells whether the token being read already holds a
    character. *)
Fixpoint tokens_from (s : bytes) (d : byte) (pending : bool) : nat :=
  match s with
  | [] => if pending then 1 else 0
  | c :: s' =>
    if Byte.eqb c d then S (tokens_from s' d false) else tokens_from s' d true
  end.

(** Whether a token is being read once [s] has gone by. *)
Definition pending_after (s : bytes) (d : byte) (pending : bool) : bool :=
  fold_left (fun _ c => negb (Byte.eqb c d)) s pending.

(** The bytes after which [get_grapheme_count] skips one more byte:
    110xxxxx. *)
Definition lead2 (b : byte) : bool :=
  (0xC0 <=? byte_val b) && (byte_val b <? 0xE0).

(** A string in which every 110xxxxx byte is followed by a byte, and that
    byte is no newline. *)
Inductive grouped : bytes -> Prop :=
| grouped_nil : grouped []
| grouped_one (b : byte) (rest : bytes) :
    lead2 b = false -> grouped rest -> grouped (b :: rest)
| grouped_two (b b' : byte) (rest : bytes) :
    lead2 b = true -> b' <> newline -> grouped rest ->
    grouped (b :: b' :: rest).

(** ** Output *)

(** The streams after [out] went to [std::cout] and [err] to [std::cerr]. *)
Definition appends (s : io) (out err : bytes) : io :=
  {| cout := cout s ++ out; cerr := cerr s ++ err |}.

(** [prints m]: [m] returns normally, whatever the streams hold, and writes
    to [std::cout] only. *)
Definition prints (m : M unit) : Prop :=
  forall s, exists out, m s = (Val tt, appends s out []).

(** [cout_only m]: [m] throws nothing and writes to [std::cout] only; it
    returns, or it ends in undefined behaviour. *)
Definition cout_only (m : M unit) : Prop :=
  forall s, exists out,
    m s = (Val tt, appends s out []) \/ m s = (Undefined, appends s out []).

(** A file the program gets through: its module cannot be opened, or the
    converter rejects its message, or its message is well-formed UTF-8
    (which the strict decoder [from_bytes] accepts). *)
Definition sound_file {module : Type} (open_module : bytes -> exn + module)
           (get_metadata : module -> bytes -> bytes) (filename : bytes) : Prop :=
  match open_module filename with
  | inl _ => True
  | inr mod_ =>
    let message := get_metadata mod_ (lit "message_raw") in
    wstring_convert_from_bytes message = None \/
    exists cps, from_bytes message = Some cps
  end.

(** What [process_file] writes to [std::cerr] for an exception. *)
Definition failure_report (filename : bytes) (e : exn) : bytes :=
  lit "can't open " ++ filename ++ lit ": " ++ what e ++ endl.

(** The row of the report: the original line, padded with spaces to
    column 80, the separator and the converted line. *)
Definition report_row (line : bytes) (graphemes : nat) (new_line : bytes) : bytes :=
  line ++ repeat " "%byte (80 - graphemes) ++ lit " | " ++ new_line ++ endl.

(** ** Notions for the further properties *)

(** The string [s] with a delimiter after its last token, if there is a
    last token that lacks one. *)
Definition terminated (s : bytes) (d : byte) : bytes :=
  match s with
  | [] => []
  | _ :: _ => if Byte.eqb (last s x00) d then s else s ++ [d]
  end.

(** What [get_grapheme_count] adds to the count for one scalar of a UTF-8
    string. *)
Definition counted_units (c : Z) : nat :=
  if c <? 0x800 then 1 else if c <? 0x10000 then 3 else 4.

(** The count [check_messages] pads a line with. *)
Definition graphemes (sg : bool) (line : bytes) : nat :=
  match get_grapheme_count sg line with
  | Counted k => k
  | PastTheEnd _ => 0
  end.

(** The rows of a report: one for each pair of lines that [diff_only] does
    not skip. *)
Definition report_rows (sg : bool) (lines new_lines : list bytes) : bytes :=
  concat (map (fun p : bytes * bytes =>
                 if diff_only && bytes_eqb (fst p) (snd p) then []
                 else report_row (fst p) (graphemes sg (fst p)) (snd p))
              (combine lines new_lines)).

(** [uniform m]: what [m] does, and what it adds to each stream, does not
    depend on what the streams hold. *)
Definition uniform {A} (m : M A) : Prop :=
  exists r out err, forall s, m s = (r, appends s out err).

(** * Properties *)

(** ** Bytes *)

Lemma byte_val_range (b : byte) : 0 <= byte_val b < 256.
Proof.
  unfold byte_val. pose proof (Byte.to_N_bounded b). lia.
Qed.

Lemma byte_of_Z_val (b : byte) : byte_of_Z (byte_val b) = b.
Proof.
  pose proof (byte_val_range b) as Hr.
  unfold byte_of_Z. rewrite Z.mod_small by lia.
  unfold byte_val. rewrite N2Z.id, Byte.of_to_N. reflexivity.
Qed.

Lemma byte_val_of_Z (z : Z) : 0 <= z < 256 -> byte_val (byte_of_Z z) = z.
Proof.
  intros Hz. unfold byte_of_Z, byte_val. rewrite Z.mod_small by lia.
  destruct (Byte.of_N (Z.to_N z)) as [b|] eqn:Hb.
  - apply Byte.to_of_N in Hb. rewrite Hb. lia.
  - apply Byte.of_N_None_iff in Hb. lia.
Qed.

Lemma byte_val_inj (a b : byte) : byte_val a = byte_val b -> a = b.
Proof.
  intros H. rewrite <- (byte_of_Z_val a), <- (byte_of_Z_val b), H. reflexivity.
Qed.

(** ** The table *)

(** Case analysis of a [uint32] on the eight low bits the switch looks at. *)
Ltac switch_cases c :=
  destruct c as [|c|c]; try lia; try reflexivity;
  do 8 (try (destruct c as [c|c|]; try lia; try reflexivity)).

Lemma cp437_above_byte (c : Z) : 0xFF < c -> cp437_to_unicode c = c.
Proof. intros H. unfold cp437_to_unicode. switch_cases c. Qed.

Lemma cp437_ascii (c : Z) :
  0x20 <= c <= 0x7E \/ c = 0x0A -> cp437_to_unicode c = c.
Proof.
  intros H. unfold cp437_to_unicode. switch_cases c.
Qed.

Lemma cp437_uint32 (c : Z) : is_uint32 c -> is_uint32 (cp437_to_unicode c).
Proof.
  unfold is_uint32, uint32_max. intros H.
  destruct (Z_lt_le_dec 0xFF c) as [Hc|Hc].
  - rewrite cp437_above_byte by exact Hc. exact H.
  - unfold cp437_to_unicode. switch_cases c; simpl; lia.
Qed.

(** C1: for every byte value [b] from 0x80 to 0xFF, [cp437_to_unicode]
    returns the scalar that the published code page 437 assigns to [b]
    (all 128 pairs: 0x80 gives 0x00C7, 0x81 gives 0x00FC, ..., 0xFF gives
    0x00A0). *)
Theorem cp437_upper_half_documented (b : Z) :
  0x80 <= b <= 0xFF -> cp437_to_unicode b = cp437_documented b.
Proof.
  intros H. unfold cp437_to_unicode, cp437_documented. switch_cases b.
Qed.

Lemma cp437_upper_half_documented_witness :
  0x80 <= 0x81 <= 0xFF /\ cp437_to_unicode 0x81 = cp437_documented 0x81.
Proof.
  split; [lia | apply (cp437_upper_half_documented 0x81); lia].
Defined.

(** The same 128 pairs as one table: the switch applied to 0x80, ..., 0xFF
    in order gives the published rows. *)
Lemma cp437_upper_half_table :
  map (fun k => cp437_to_unicode (0x80 + Z.of_nat k)) (seq 0 128) = cp437_upper_half.
Proof. reflexivity. Qed.

(** C2: for every byte value [b] from 0x20 to 0x7E (printable ASCII) and
    for [b = 0x0A] (newline), [cp437_to_unicode] returns [b] itself. *)
Theorem cp437_printable_ascii_identity (b : Z) :
  0x20 <= b <= 0x7E \/ b = 0x0A -> cp437_to_unicode b = b.
Proof. apply cp437_ascii. Qed.

Lemma cp437_printable_ascii_identity_witness :
  (0x20 <= 0x41 <= 0x7E \/ 0x41 = 0x0A) /\ cp437_to_unicode 0x41 = 0x41.
Proof.
  split; [left; lia | apply (cp437_printable_ascii_identity 0x41); left; lia].
Defined.

Lemma cp437_stable_fixed (c : Z) : cp437_stable c -> cp437_to_unicode c = c.
Proof.
  intros [H|H]; [apply cp437_above_byte; exact H | apply cp437_ascii; exact H].
Qed.

Lemma cp437_stable_message (cs : list Z) :
  Forall cp437_stable cs -> map cp437_to_unicode cs = cs.
Proof.
  induction 1 as [|c cs Hc _ IH]; simpl; [reflexivity|].
  rewrite (cp437_stable_fixed c Hc), IH. reflexivity.
Qed.

(** C10, as the claim states it, fails: a second pass through the table is
    not the identity on a converted message.  The scalar 0x80 goes to 0xC7
    and 0xC7 goes on to 0x255F. *)
Lemma cp437_twice_counterexample :
  is_uint32 0x80 /\
  map cp437_to_unicode [0x80] = [0xC7] /\
  map cp437_to_unicode (map cp437_to_unicode [0x80]) = [0x255F] /\
  map cp437_to_unicode (map cp437_to_unicode [0x80]) <> map cp437_to_unicode [0x80].
Proof.
  unfold is_uint32, uint32_max. repeat split; try lia; discriminate.
Qed.

(** C10 (amended): [cp437_to_unicode] is total on the 32-bit values and
    returns every [c] above 0xFF unchanged; a second pass over a converted
    message changes nothing when every scalar of the converted message is
    above 0xFF, printable ASCII or the newline. *)
Theorem cp437_total_identity_above_byte (c : Z) :
  is_uint32 c ->
  is_uint32 (cp437_to_unicode c) /\
  (0xFF < c -> cp437_to_unicode c = c) /\
  (forall cs : list Z,
      Forall cp437_stable (map cp437_to_unicode cs) ->
      map cp437_to_unicode (map cp437_to_unicode cs) = map cp437_to_unicode cs).
Proof.
  intros Hc. split; [apply cp437_uint32; exact Hc|].
  split; [apply cp437_above_byte|].
  intros cs Hcs. apply cp437_stable_message. exact Hcs.
Qed.

Lemma cp437_total_identity_above_byte_witness :
  is_uint32 0x20AC /\ cp437_to_unicode 0x20AC = 0x20AC.
Proof.
  assert (H : is_uint32 0x20AC) by (unfold is_uint32, uint32_max; lia).
  split; [exact H|].
  apply (proj1 (proj2 (cp437_total_identity_above_byte 0x20AC H))). lia.
Defined.

(** ** The codec *)

(** Linear arithmetic with division and remainder by constants. *)
Ltac zdm := Z.div_mod_to_equations; lia.

(** The base-64 digits of a scalar, which are the payloads of its bytes. *)
Lemma digits (c : Z) :
  0 <= c ->
  let d0 := c mod 0x40 in
  let d1 := (c / 0x40) mod 0x40 in
  let d2 := (c / 0x1000) mod 0x40 in
  0 <= d0 < 0x40 /\ 0 <= d1 < 0x40 /\ 0 <= d2 < 0x40 /\
  c = 0x40 * (c / 0x40) + d0 /\
  c = 0x1000 * (c / 0x1000) + 0x40 * d1 + d0 /\
  c = 0x40000 * (c / 0x40000) + 0x1000 * d2 + 0x40 * d1 + d0.
Proof. intros H. cbv zeta. zdm. Qed.

Lemma ltb_true a b : a < b -> (a <? b) = true.
Proof. apply Z.ltb_lt. Qed.
Lemma ltb_false a b : b <= a -> (a <? b) = false.
Proof. apply Z.ltb_ge. Qed.
Lemma leb_true a b : a <= b -> (a <=? b) = true.
Proof. apply Z.leb_le. Qed.
Lemma leb_false a b : b < a -> (a <=? b) = false.
Proof. apply Z.leb_gt. Qed.

Lemma is_continuation_of_Z (d : Z) :
  0 <= d < 0x40 -> is_continuation (byte_of_Z (0x80 + d)) = true.
Proof.
  intros H. unfold is_continuation. rewrite byte_val_of_Z by lia.
  rewrite !leb_true by lia. reflexivity.
Qed.

Lemma Some_inj {A} (a b : A) : Some a = Some b -> a = b.
Proof. intros H. injection H as H. exact H. Qed.

(** Reading back the bytes written for one scalar gives that scalar. *)
Lemma from_bytes_to_bytes1 (c : Z) (bs rest : bytes) :
  to_bytes1 c = Some bs ->
  from_bytes (bs ++ rest) = option_map (cons c) (from_bytes rest).
Proof.
  unfold to_bytes1, is_scalar, is_surrogate.
  destruct (Z.leb_spec 0 c) as [H0|]; [|discriminate].
  destruct (Z.leb_spec c 0x10FFFF) as [Hmax|]; [|discriminate].
  cbn [andb].
  destruct (digits c H0) as (Hd0 & Hd1 & Hd2 & E2 & E3 & E4).
  set (d0 := c mod 0x40) in *. set (d1 := (c / 0x40) mod 0x40) in *.
  set (d2 := (c / 0x1000) mod 0x40) in *.
  set (q2 := c / 0x40) in *. set (q3 := c / 0x1000) in *. set (q4 := c / 0x40000) in *.
  clearbody d0 d1 d2 q2 q3 q4.
  destruct ((0xD800 <=? c) && (c <=? 0xDFFF)) eqn:Hsur; [discriminate|].
  cbn [negb].
  destruct (Z.ltb_spec c 0x80) as [H1|H1];
    [|destruct (Z.ltb_spec c 0x800) as [H2|H2];
      [|destruct (Z.ltb_spec c 0x10000) as [H3|H3]]];
  intros Hbs; apply Some_inj in Hbs; subst bs; cbn [app from_bytes].
  - rewrite byte_val_of_Z by lia. rewrite ltb_true by lia. reflexivity.
  - rename q2 into q.
    rewrite !byte_val_of_Z by lia. rewrite is_continuation_of_Z by lia.
    rewrite ltb_false by lia. rewrite ltb_false by lia. rewrite ltb_true by lia.
    replace ((0xC0 + q - 0xC0) * 0x40 + (0x80 + d0 - 0x80)) with c by lia.
    rewrite leb_true by lia. reflexivity.
  - rename q3 into q.
    rewrite !byte_val_of_Z by lia. rewrite !is_continuation_of_Z by lia.
    rewrite 3 ltb_false by lia. rewrite ltb_true by lia.
    replace ((0xE0 + q - 0xE0) * 0x1000 + (0x80 + d1 - 0x80) * 0x40 + (0x80 + d0 - 0x80)) with c by lia.
    unfold is_surrogate. rewrite Hsur.
    rewrite leb_true by lia. reflexivity.
  - rename q4 into q.
    rewrite !byte_val_of_Z by lia. rewrite !is_continuation_of_Z by lia.
    rewrite 4 ltb_false by lia. rewrite ltb_true by lia.
    replace ((0xF0 + q - 0xF0) * 0x40000 + (0x80 + d2 - 0x80) * 0x1000 + (0x80 + d1 - 0x80) * 0x40 + (0x80 + d0 - 0x80)) with c by lia.
    rewrite !leb_true by lia. reflexivity.
Qed.

Lemma option_map_cons_Some (c : Z) (o : option (list Z)) (cs : list Z) :
  option_map (cons c) o = Some cs -> exists l, o = Some l /\ cs = c :: l.
Proof.
  destruct o as [l|]; simpl; [|discriminate].
  intros H. apply Some_inj in H. exists l. split; [reflexivity | congruence].
Qed.

Lemma is_continuation_range (b : byte) :
  is_continuation b = true -> 0x80 <= byte_val b <= 0xBF.
Proof.
  unfold is_continuation. intros H. apply andb_prop in H. destruct H as [H1 H2].
  apply Z.leb_le in H1. apply Z.leb_le in H2. lia.
Qed.

Lemma is_scalar_true (c : Z) :
  0 <= c <= 0x10FFFF -> is_surrogate c = false -> is_scalar c = true.
Proof.
  intros H Hs. unfold is_scalar. rewrite Hs, !leb_true by lia. reflexivity.
Qed.

Lemma not_surrogate_below (c : Z) : c < 0xD800 -> is_surrogate c = false.
Proof. intros H. unfold is_surrogate. rewrite leb_false by lia. reflexivity. Qed.

Lemma not_surrogate_above (c : Z) : 0xDFFF < c -> is_surrogate c = false.
Proof.
  intros H. unfold is_surrogate. rewrite (leb_false c) by lia. apply andb_false_r.
Qed.

(** Writing the scalar read from one, two, three or four bytes gives those
    bytes back. *)
Lemma to_bytes1_of_1 (b0 : byte) :
  byte_val b0 < 0x80 -> to_bytes1 (byte_val b0) = Some [b0].
Proof.
  intros H. pose proof (byte_val_range b0). unfold to_bytes1.
  rewrite is_scalar_true by (try apply not_surrogate_below; lia).
  cbn [negb]. rewrite ltb_true by lia. rewrite byte_of_Z_val. reflexivity.
Qed.

Lemma to_bytes1_of_2 (b0 b1 : byte) :
  let c := (byte_val b0 - 0xC0) * 0x40 + (byte_val b1 - 0x80) in
  0xC0 <= byte_val b0 < 0xE0 -> is_continuation b1 = true -> 0x80 <= c ->
  to_bytes1 c = Some [b0; b1].
Proof.
  intros c H0 H1 Hc. apply is_continuation_range in H1.
  assert (Hq : c / 0x40 = byte_val b0 - 0xC0) by (subst c; zdm).
  assert (Hr : c mod 0x40 = byte_val b1 - 0x80) by (subst c; zdm).
  assert (Hlt : c < 0x800) by (subst c; lia).
  clearbody c. unfold to_bytes1.
  rewrite is_scalar_true by (try apply not_surrogate_below; lia).
  cbn [negb]. rewrite ltb_false, ltb_true by lia. rewrite Hq, Hr.
  replace (0xC0 + (byte_val b0 - 0xC0)) with (byte_val b0) by lia.
  replace (0x80 + (byte_val b1 - 0x80)) with (byte_val b1) by lia.
  rewrite !byte_of_Z_val. reflexivity.
Qed.

Lemma to_bytes1_of_3 (b0 b1 b2 : byte) :
  let c := (byte_val b0 - 0xE0) * 0x1000 + (byte_val b1 - 0x80) * 0x40
           + (byte_val b2 - 0x80) in
  0xE0 <= byte_val b0 < 0xF0 ->
  is_continuation b1 = true -> is_continuation b2 = true ->
  0x800 <= c -> is_surrogate c = false ->
  to_bytes1 c = Some [b0; b1; b2].
Proof.
  intros c H0 H1 H2 Hc Hs.
  apply is_continuation_range in H1. apply is_continuation_range in H2.
  assert (Hq : c / 0x1000 = byte_val b0 - 0xE0) by (subst c; zdm).
  assert (Hm : (c / 0x40) mod 0x40 = byte_val b1 - 0x80) by (subst c; zdm).
  assert (Hr : c mod 0x40 = byte_val b2 - 0x80) by (subst c; zdm).
  assert (Hlt : c < 0x10000) by (subst c; lia).
  clearbody c. unfold to_bytes1.
  rewrite is_scalar_true by (try assumption; lia).
  cbn [negb]. rewrite !ltb_false, ltb_true by lia. rewrite Hq, Hm, Hr.
  replace (0xE0 + (byte_val b0 - 0xE0)) with (byte_val b0) by lia.
  replace (0x80 + (byte_val b1 - 0x80)) with (byte_val b1) by lia.
  replace (0x80 + (byte_val b2 - 0x80)) with (byte_val b2) by lia.
  rewrite !byte_of_Z_val. reflexivity.
Qed.

Lemma to_bytes1_of_4 (b0 b1 b2 b3 : byte) :
  let c := (byte_val b0 - 0xF0) * 0x40000 + (byte_val b1 - 0x80) * 0x1000
           + (byte_val b2 - 0x80) * 0x40 + (byte_val b3 - 0x80) in
  0xF0 <= byte_val b0 < 0xF8 ->
  is_continuation b1 = true -> is_continuation b2 = true ->
  is_continuation b3 = true ->
  0x10000 <= c <= 0x10FFFF ->
  to_bytes1 c = Some [b0; b1; b2; b3].
Proof.
  intros c H0 H1 H2 H3 Hc.
  apply is_continuation_range in H1. apply is_continuation_range in H2.
  apply is_continuation_range in H3.
  assert (Hq : c / 0x40000 = byte_val b0 - 0xF0) by (subst c; zdm).
  assert (Hn : (c / 0x1000) mod 0x40 = byte_val b1 - 0x80) by (subst c; zdm).
  assert (Hm : (c / 0x40) mod 0x40 = byte_val b2 - 0x80) by (subst c; zdm).
  assert (Hr : c mod 0x40 = byte_val b3 - 0x80) by (subst c; zdm).
  clearbody c. unfold to_bytes1.
  rewrite is_scalar_true by (try apply not_surrogate_above; lia).
  cbn [negb]. rewrite !ltb_false by lia. rewrite Hq, Hn, Hm, Hr.
  replace (0xF0 + (byte_val b0 - 0xF0)) with (byte_val b0) by lia.
  replace (0x80 + (byte_val b1 - 0x80)) with (byte_val b1) by lia.
  replace (0x80 + (byte_val b2 - 0x80)) with (byte_val b2) by lia.
  replace (0x80 + (byte_val b3 - 0x80)) with (byte_val b3) by lia.
  rewrite !byte_of_Z_val. reflexivity.
Qed.

Lemma from_bytes_cons (b0 : byte) (s1 : bytes) :
  from_bytes (b0 :: s1) =
  let v0 := byte_val b0 in
  if v0 <? 0x80 then option_map (cons v0) (from_bytes s1)
  else if v0 <? 0xC0 then None
  else if v0 <? 0xE0 then
    match s1 with
    | b1 :: s2 =>
      let c := (v0 - 0xC0) * 0x40 + (byte_val b1 - 0x80) in
      if is_continuation b1 && (0x80 <=? c)
      then option_map (cons c) (from_bytes s2) else None
    | _ => None
    end
  else if v0 <? 0xF0 then
    match s1 with
    | b1 :: b2 :: s3 =>
      let c := (v0 - 0xE0) * 0x1000 + (byte_val b1 - 0x80) * 0x40
               + (byte_val b2 - 0x80) in
      if is_continuation b1 && is_continuation b2
         && (0x800 <=? c) && negb (is_surrogate c)
      then option_map (cons c) (from_bytes s3) else None
    | _ => None
    end
  else if v0 <? 0xF8 then
    match s1 with
    | b1 :: b2 :: b3 :: s4 =>
      let c := (v0 - 0xF0) * 0x40000 + (byte_val b1 - 0x80) * 0x1000
               + (byte_val b2 - 0x80) * 0x40 + (byte_val b3 - 0x80) in
      if is_continuation b1 && is_continuation b2 && is_continuation b3
         && (0x10000 <=? c) && (c <=? 0x10FFFF)
      then option_map (cons c) (from_bytes s4) else None
    | _ => None
    end
  else None.
Proof. destruct s1 as [|b1 [|b2 [|b3 s4]]]; reflexivity. Qed.

(** Splitting a conjunction of tests that holds. *)
Ltac split_tests H :=
  repeat match type of H with
  | _ && _ = true =>
      let H' := fresh H in
      apply andb_prop in H; destruct H as [H H']
  end.

Lemma from_bytes_decodes_bounded (n : nat) :
  forall (s : bytes) (cs : list Z),
    (length s <= n)%nat -> from_bytes s = Some cs -> decodes s cs.
Proof.
  induction n as [|n IH]; intros s cs Hlen Hdec.
  - destruct s; [|simpl in Hlen; lia].
    apply Some_inj in Hdec. subst cs. constructor.
  - destruct s as [|b0 s1].
    { apply Some_inj in Hdec. subst cs. constructor. }
    rewrite from_bytes_cons in Hdec. cbv zeta in Hdec.
    cbn [length] in Hlen.
    destruct (Z.ltb_spec (byte_val b0) 0x80) as [L1|L1].
    { apply option_map_cons_Some in Hdec. destruct Hdec as (l & Hl & ->).
      apply (decodes_cons _ [b0]); [apply to_bytes1_of_1; exact L1|].
      apply IH; [lia | exact Hl]. }
    destruct (Z.ltb_spec (byte_val b0) 0xC0) as [L2|L2]; [discriminate|].
    destruct (Z.ltb_spec (byte_val b0) 0xE0) as [L3|L3].
    { destruct s1 as [|b1 s2]; [discriminate|].
      destruct (is_continuation b1 && _) eqn:T; [|discriminate].
      split_tests T.
      apply option_map_cons_Some in Hdec. destruct Hdec as (l & Hl & ->).
      apply (decodes_cons _ [b0; b1]).
      - apply to_bytes1_of_2; [lia | assumption | apply Z.leb_le; assumption].
      - apply IH; [cbn [length] in Hlen; lia | exact Hl]. }
    destruct (Z.ltb_spec (byte_val b0) 0xF0) as [L4|L4].
    { destruct s1 as [|b1 [|b2 s3]]; try discriminate.
      destruct (is_continuation b1 && _ && _ && _) eqn:T; [|discriminate].
      split_tests T.
      apply option_map_cons_Some in Hdec. destruct Hdec as (l & Hl & ->).
      apply (decodes_cons _ [b0; b1; b2]).
      - apply to_bytes1_of_3; try assumption; [lia | apply Z.leb_le; assumption |].
        apply negb_true_iff. assumption.
      - apply IH; [cbn [length] in Hlen; lia | exact Hl]. }
    destruct (Z.ltb_spec (byte_val b0) 0xF8) as [L5|L5]; [|discriminate].
    destruct s1 as [|b1 [|b2 [|b3 s4]]]; try discriminate.
    destruct (is_continuation b1 && _ && _ && _ && _) eqn:T; [|discriminate].
    split_tests T.
    apply option_map_cons_Some in Hdec. destruct Hdec as (l & Hl & ->).
    apply (decodes_cons _ [b0; b1; b2; b3]).
    + apply to_bytes1_of_4; try assumption; [lia|].
      split; apply Z.leb_le; assumption.
    + apply IH; [cbn [length] in Hlen; lia | exact Hl].
Qed.

Lemma from_bytes_decodes (s : bytes) (cs : list Z) :
  from_bytes s = Some cs -> decodes s cs.
Proof. apply (from_bytes_decodes_bounded (length s)). lia. Qed.

Lemma decodes_from_bytes (s : bytes) (cs : list Z) :
  decodes s cs -> from_bytes s = Some cs.
Proof.
  induction 1 as [|c bs rest cs Hc _ IH]; [reflexivity|].
  rewrite (from_bytes_to_bytes1 c bs rest Hc), IH. reflexivity.
Qed.

Lemma decodes_to_bytes (s : bytes) (cs : list Z) :
  decodes s cs -> to_bytes cs = Some s.
Proof.
  induction 1 as [|c bs rest cs Hc _ IH]; [reflexivity|].
  cbn [to_bytes]. rewrite Hc, IH. reflexivity.
Qed.

Lemma to_bytes_decodes (cs : list Z) (s : bytes) :
  to_bytes cs = Some s -> decodes s cs.
Proof.
  revert s. induction cs as [|c cs IH]; intros s H.
  - apply Some_inj in H. subst s. constructor.
  - cbn [to_bytes] in H.
    destruct (to_bytes1 c) as [bs|] eqn:Hc; [|discriminate].
    destruct (to_bytes cs) as [rest|]; [|discriminate].
    apply Some_inj in H. subst s. constructor; [exact Hc | apply IH; reflexivity].
Qed.

Lemma to_bytes_total (cs : list Z) :
  Forall (fun c => is_scalar c = true) cs -> exists s, to_bytes cs = Some s.
Proof.
  induction 1 as [|c cs Hc _ [s IH]]; [exists []; reflexivity|].
  cbn [to_bytes]. rewrite IH.
  unfold to_bytes1. rewrite Hc. cbn [negb].
  repeat match goal with |- context [if ?t then _ else _] => destruct t end;
    eexists; reflexivity.
Qed.

(** ** Unfolding the loops *)

Lemma split_loop_eq (ss : bytes) (d : byte) (tokens : list bytes) :
  split_loop ss d tokens =
  match getline ss d with
  | Some (token, rest) => split_loop rest d (tokens ++ [token])
  | None => tokens
  end.
Proof.
  rewrite split_loop_equation_1. unfold inspect.
  generalize (@eq_refl _ (getline ss d)).
  generalize (getline ss d) at 2 4 5.
  intros [[token rest]|] e; reflexivity.
Qed.
Lemma count_loop_eq (sg : bool) (s : bytes) (it n : nat) :
  count_loop sg s it n =
  match nth_error s it with
  | Some b => count_loop sg s (it + advance sg b) (S n)
  | None => if (it =? length s)%nat then Counted n else PastTheEnd it
  end.
Proof.
  rewrite count_loop_equation_1. unfold inspect.
  generalize (@eq_refl _ (nth_error s it)).
  generalize (nth_error s it) at 2 4 5.
  intros [b|] e; reflexivity.
Qed.
Lemma advance_spec (sg : bool) (b : byte) :
  advance sg b = if (0xC0 <=? byte_val b) && (byte_val b <? 0xE0) then 2%nat else 1%nat.
Proof. destruct sg, b; reflexivity. Qed.

(** ** Counting lines *)

Lemma tokens_from_pending (s : bytes) (d : byte) :
  tokens_from s d true = S (tokens_from (snd (getline_chars s d)) d false).
Proof.
  induction s as [|c s IH]; [reflexivity|].
  cbn [tokens_from getline_chars].
  destruct (Byte.eqb c d); [reflexivity|].
  rewrite IH. destruct (getline_chars s d); reflexivity.
Qed.

Lemma tokens_from_getline (s : bytes) (d : byte) (token rest : bytes) :
  getline s d = Some (token, rest) ->
  tokens_from s d false = S (tokens_from rest d false).
Proof.
  destruct s as [|c s]; [discriminate|].
  unfold getline. intros H. apply Some_inj in H.
  cbn [tokens_from getline_chars] in *.
  destruct (Byte.eqb c d).
  - congruence.
  - rewrite tokens_from_pending.
    destruct (getline_chars s d) as [t r]. cbn [snd]. congruence.
Qed.

Lemma split_loop_length_bounded (n : nat) :
  forall (s : bytes) (d : byte) (tokens : list bytes),
    (length s <= n)%nat ->
    length (split_loop s d tokens) = (length tokens + tokens_from s d false)%nat.
Proof.
  induction n as [|n IH]; intros s d tokens Hn; rewrite split_loop_eq.
  - destruct s; [simpl; lia | simpl in Hn; lia].
  - destruct (getline s d) as [[token rest]|] eqn:Hget.
    + pose proof (getline_rest_lt s d token rest Hget).
      rewrite IH by lia. rewrite length_app. cbn [length].
      rewrite (tokens_from_getline s d token rest Hget). lia.
    + destruct s; [simpl; lia | discriminate].
Qed.

Lemma split_length (s : bytes) (d : byte) :
  length (split s d) = tokens_from s d false.
Proof.
  unfold split. rewrite (split_loop_length_bounded (length s)) by lia.
  reflexivity.
Qed.

Lemma tokens_from_skip (bs rest : bytes) (d : byte) (pending : bool) :
  bs <> [] -> Forall (fun b => b <> d) bs ->
  tokens_from (bs ++ rest) d pending = tokens_from rest d true.
Proof.
  intros Hne Hall. revert pending.
  induction Hall as [|b bs Hb Hall IH]; [congruence|].
  intros pending. cbn [app tokens_from].
  destruct (Byte.eqb b d) eqn:E; [apply Byte.byte_dec_bl in E; congruence|].
  destruct bs as [|b' bs]; [reflexivity|].
  apply IH. discriminate.
Qed.

(** ** What the table and the encoder can produce *)

(** A remapped scalar is one of the table's values, all of which lie
    between 0xA0 and 0x266B. *)
Lemma cp437_changed (c : Z) :
  cp437_to_unicode c = c \/ 0xA0 <= cp437_to_unicode c <= 0x266B.
Proof.
  unfold cp437_to_unicode.
  destruct c as [|p|p]; [right; cbv; split; discriminate | | left; reflexivity].
  do 8 (try destruct p as [p|p|]);
    first [left; reflexivity | right; cbv; split; discriminate].
Qed.

Lemma cp437_newline (c : Z) : cp437_to_unicode c = 0x0A -> c = 0x0A.
Proof. destruct (cp437_changed c); lia. Qed.

Lemma is_scalar_range (c : Z) :
  is_scalar c = true -> 0 <= c <= 0x10FFFF /\ is_surrogate c = false.
Proof.
  unfold is_scalar. intros H. split_tests H.
  apply Z.leb_le in H, H1. apply negb_true_iff in H0. split; [lia | exact H0].
Qed.

Lemma cp437_scalar (c : Z) :
  is_scalar c = true -> is_scalar (cp437_to_unicode c) = true.
Proof.
  intros H. destruct (cp437_changed c) as [E|E]; [rewrite E; exact H|].
  apply is_scalar_true; [lia | apply not_surrogate_below; lia].
Qed.

Lemma to_bytes1_cases (c : Z) (bs : bytes) :
  to_bytes1 c = Some bs ->
  (0 <= c < 0x80 /\ bs = [byte_of_Z c]) \/
  (0x80 <= c /\ utf8_form bs /\ (1 < length bs)%nat).
Proof.
  unfold to_bytes1. destruct (is_scalar c) eqn:Hs; [|discriminate].
  apply is_scalar_range in Hs. destruct Hs as [[H0 Hmax] _]. cbn [negb].
  destruct (digits c H0) as (Hd0 & Hd1 & Hd2 & E2 & E3 & E4).
  set (d0 := c mod 0x40) in *. set (d1 := (c / 0x40) mod 0x40) in *.
  set (d2 := (c / 0x1000) mod 0x40) in *.
  set (q2 := c / 0x40) in *. set (q3 := c / 0x1000) in *.
  set (q4 := c / 0x40000) in *.
  clearbody d0 d1 d2 q2 q3 q4.
  destruct (Z.ltb_spec c 0x80) as [H1|H1];
    [|destruct (Z.ltb_spec c 0x800) as [H2|H2];
      [|destruct (Z.ltb_spec c 0x10000) as [H3|H3]]];
  intros Hbs; apply Some_inj in Hbs; subst bs.
  - left. split; [lia | reflexivity].
  - right. split; [lia|]. split; [|simpl; lia].
    constructor; [rewrite byte_val_of_Z by lia; lia|].
    apply is_continuation_of_Z; lia.
  - right. split; [lia|]. split; [|simpl; lia].
    constructor; [rewrite byte_val_of_Z by lia; lia| |];
    apply is_continuation_of_Z; lia.
  - right. split; [lia|]. split; [|simpl; lia].
    constructor; [rewrite byte_val_of_Z by lia; lia| | |];
    apply is_continuation_of_Z; lia.
Qed.

Lemma to_bytes1_form (c : Z) (bs : bytes) :
  to_bytes1 c = Some bs -> utf8_form bs.
Proof.
  intros H. destruct (to_bytes1_cases c bs H) as [[Hc ->]|(_ & Hf & _)].
  - constructor. rewrite byte_val_of_Z by lia. lia.
  - exact Hf.
Qed.

Lemma to_bytes1_scalar (c : Z) (bs : bytes) :
  to_bytes1 c = Some bs -> is_scalar c = true.
Proof.
  unfold to_bytes1. destruct (is_scalar c); [reflexivity | discriminate].
Qed.

Lemma byte_val_newline (b : byte) : b = newline <-> byte_val b = 0x0A.
Proof.
  split; [intros ->; reflexivity|].
  intros H. apply byte_val_inj. rewrite H. reflexivity.
Qed.

Lemma continuation_not_newline (b : byte) :
  is_continuation b = true -> b <> newline.
Proof.
  intros H E. apply is_continuation_range in H.
  apply byte_val_newline in E. lia.
Qed.

(** The newline byte is written for the scalar 0x0A and for no other. *)
Lemma to_bytes1_newline (c : Z) (bs : bytes) :
  to_bytes1 c = Some bs ->
  (c = 0x0A /\ bs = [newline]) \/
  (c <> 0x0A /\ bs <> [] /\ Forall (fun b => b <> newline) bs).
Proof.
  intros H. destruct (to_bytes1_cases c bs H) as [[Hc ->]|(Hc & Hf & Hlen)].
  - destruct (Z.eq_dec c 0x0A) as [->|Hne]; [left; split; reflexivity|].
    right. split; [exact Hne|]. split; [discriminate|].
    constructor; [|constructor].
    intros E. apply byte_val_newline in E.
    rewrite byte_val_of_Z in E by lia. contradiction.
  - right. split; [lia|].
    assert (Hlead : forall b, 0xC0 <= byte_val b -> b <> newline)
      by (intros b Hb E; apply byte_val_newline in E; lia).
    destruct Hf as [b0 Hb|b0 b1 Hb|b0 b1 b2 Hb|b0 b1 b2 b3 Hb];
      [simpl in Hlen; lia|split; [discriminate|]..];
      repeat constructor;
      first [apply Hlead; lia | apply continuation_not_newline; assumption].
Qed.

(** ** The remap keeps the number of lines *)

Lemma remap_tokens_from (s s' : bytes) (cs : list Z) :
  decodes s cs -> decodes s' (map cp437_to_unicode cs) ->
  forall pending, tokens_from s newline pending = tokens_from s' newline pending.
Proof.
  intros H. revert s'.
  induction H as [|c bs rest cs Hc _ IH]; intros s' H' pending.
  - inversion H'. reflexivity.
  - cbn [map] in H'. inversion H' as [|c' bs' rest' cs' Hc' Hrest']. subst.
    destruct (to_bytes1_newline _ _ Hc) as [[-> ->]|(Hne & Hbs & Hall)].
    + change (to_bytes1 0x0A) with (Some [newline]) in Hc'.
      apply Some_inj in Hc'. subst bs'.
      cbn [app tokens_from]. rewrite (IH rest' Hrest'). reflexivity.
    + destruct (to_bytes1_newline _ _ Hc') as [[E _]|(_ & Hbs' & Hall')];
        [apply cp437_newline in E; contradiction|].
      rewrite !tokens_from_skip by assumption.
      apply IH. exact Hrest'.
Qed.

(** ** Well-formed UTF-8 *)

Lemma is_continuation_true (b : byte) :
  0x80 <= byte_val b <= 0xBF -> is_continuation b = true.
Proof.
  intros H. unfold is_continuation. rewrite !leb_true by lia. reflexivity.
Qed.

Lemma is_surrogate_false (c : Z) :
  c < 0xD800 \/ 0xDFFF < c -> is_surrogate c = false.
Proof.
  intros [H|H]; [apply not_surrogate_below | apply not_surrogate_above]; exact H.
Qed.

(** The decoder accepts every well-formed byte sequence. *)
Lemma well_formed_from_bytes (s : bytes) :
  well_formed_utf8 s -> exists cs, from_bytes s = Some cs.
Proof.
  induction 1 as [ | b0 rest H0 _ [cs IH]
                   | b0 b1 rest H0 H1 _ [cs IH]
                   | b0 b1 b2 rest H0 H1 H2 _ [cs IH]
                   | b0 b1 b2 rest H0 H1 H2 _ [cs IH]
                   | b0 b1 b2 rest H0 H1 H2 _ [cs IH]
                   | b0 b1 b2 b3 rest H0 H1 H2 H3 _ [cs IH]
                   | b0 b1 b2 b3 rest H0 H1 H2 H3 _ [cs IH]
                   | b0 b1 b2 b3 rest H0 H1 H2 H3 _ [cs IH] ];
    [exists []; reflexivity | unfold in_range in *; rewrite from_bytes_cons; cbv zeta ..].
  - rewrite ltb_true, IH by lia. eexists; reflexivity.
  - rewrite !ltb_false, ltb_true by lia.
    rewrite is_continuation_true, leb_true, IH by lia. eexists; reflexivity.
  - rewrite !ltb_false, ltb_true by lia.
    rewrite !is_continuation_true, leb_true, is_surrogate_false, IH by lia.
    eexists; reflexivity.
  - rewrite !ltb_false, ltb_true by lia.
    rewrite !is_continuation_true, leb_true, is_surrogate_false, IH by lia.
    eexists; reflexivity.
  - rewrite !ltb_false, ltb_true by lia.
    rewrite !is_continuation_true, leb_true, is_surrogate_false, IH by lia.
    eexists; reflexivity.
  - rewrite !ltb_false, ltb_true by lia.
    rewrite !is_continuation_true, !leb_true, IH by lia. eexists; reflexivity.
  - rewrite !ltb_false, ltb_true by lia.
    rewrite !is_continuation_true, !leb_true, IH by lia. eexists; reflexivity.
  - rewrite !ltb_false, ltb_true by lia.
    rewrite !is_continuation_true, !leb_true, IH by lia. eexists; reflexivity.
Qed.

(** The bytes written for one scalar make a row of the table. *)
Lemma to_bytes1_well_formed (c : Z) (bs rest : bytes) :
  to_bytes1 c = Some bs -> well_formed_utf8 rest -> well_formed_utf8 (bs ++ rest).
Proof.
  unfold to_bytes1. destruct (is_scalar c) eqn:Hs; [|discriminate].
  apply is_scalar_range in Hs. destruct Hs as [[H0 Hmax] Hsur]. cbn [negb].
  assert (Hsur' : c < 0xD800 \/ 0xDFFF < c).
  { unfold is_surrogate in Hsur. apply andb_false_iff in Hsur.
    destruct Hsur as [H|H]; apply Z.leb_gt in H; lia. }
  clear Hsur.
  destruct (digits c H0) as (Hd0 & Hd1 & Hd2 & E2 & E3 & E4).
  set (d0 := c mod 0x40) in *. set (d1 := (c / 0x40) mod 0x40) in *.
  set (d2 := (c / 0x1000) mod 0x40) in *.
  set (q2 := c / 0x40) in *. set (q3 := c / 0x1000) in *.
  set (q4 := c / 0x40000) in *.
  clearbody d0 d1 d2 q2 q3 q4.
  destruct (Z.ltb_spec c 0x80) as [H1|H1];
    [|destruct (Z.ltb_spec c 0x800) as [H2|H2];
      [|destruct (Z.ltb_spec c 0x10000) as [H3|H3]]];
  intros Hbs Hrest; apply Some_inj in Hbs; subst bs; cbn [app].
  - apply wf_ascii; [|exact Hrest].
    unfold in_range. rewrite byte_val_of_Z by lia. lia.
  - apply wf_two; [| |exact Hrest];
      unfold in_range; rewrite byte_val_of_Z by lia; lia.
  - destruct (Z.eq_dec q3 0) as [Eq|Nq]; [|destruct (Z.eq_dec q3 0xD) as [Eq|Nq']].
    + apply wf_three_e0; [| | |exact Hrest];
        unfold in_range; rewrite byte_val_of_Z by lia; lia.
    + apply wf_three_ed; [| | |exact Hrest];
        unfold in_range; rewrite byte_val_of_Z by lia; lia.
    + apply wf_three; [| | |exact Hrest];
        unfold in_range; rewrite byte_val_of_Z by lia; lia.
  - destruct (Z.eq_dec q4 0) as [Eq|Nq]; [|destruct (Z.eq_dec q4 4) as [Eq|Nq']].
    + apply wf_four_f0; [| | | |exact Hrest];
        unfold in_range; rewrite byte_val_of_Z by lia; lia.
    + apply wf_four_f4; [| | | |exact Hrest];
        unfold in_range; rewrite byte_val_of_Z by lia; lia.
    + apply wf_four; [| | | |exact Hrest];
        unfold in_range; rewrite byte_val_of_Z by lia; lia.
Qed.

(** The decoder accepts the well-formed byte sequences and no others. *)
Lemma from_bytes_well_formed (s : bytes) :
  (exists cs, from_bytes s = Some cs) <-> well_formed_utf8 s.
Proof.
  split; [|apply well_formed_from_bytes].
  intros [cs H]. apply from_bytes_decodes in H.
  induction H as [|c bs rest cs Hc _ IH]; [constructor|].
  apply (to_bytes1_well_formed c); assumption.
Qed.

(** ** The converter on well-formed input *)

Lemma ucs4_in_cons (b1 : byte) (s1 : bytes) :
  ucs4_in (b1 :: s1) =
  let c1 := byte_val b1 in
  if c1 <? 0x80 then decoded c1 (ucs4_in s1)
  else if c1 <? 0xC2 then (codecvt_error, [])
  else if c1 <? 0xE0 then
    match s1 with
    | b2 :: s2 =>
      let c2 := byte_val b2 in
      if negb (is_continuation b2) then (codecvt_error, [])
      else decoded (c1 * 0x40 + c2 - 0x3080) (ucs4_in s2)
    | _ => (codecvt_partial, [])
    end
  else if c1 <? 0xF0 then
    match s1 with
    | b2 :: b3 :: s3 =>
      let c2 := byte_val b2 in
      let c3 := byte_val b3 in
      if negb (is_continuation b2) then (codecvt_error, [])
      else if (c1 =? 0xE0) && (c2 <? 0xA0) then (codecvt_error, [])
      else if negb (is_continuation b3) then (codecvt_error, [])
      else decoded (c1 * 0x1000 + c2 * 0x40 + c3 - 0xE2080) (ucs4_in s3)
    | _ => (codecvt_partial, [])
    end
  else if c1 <? 0xF5 then
    match s1 with
    | b2 :: b3 :: b4 :: s4 =>
      let c2 := byte_val b2 in
      let c3 := byte_val b3 in
      let c4 := byte_val b4 in
      if negb (is_continuation b2) then (codecvt_error, [])
      else if (c1 =? 0xF0) && (c2 <? 0x90) then (codecvt_error, [])
      else if (c1 =? 0xF4) && (0x90 <=? c2) then (codecvt_error, [])
      else if negb (is_continuation b3) then (codecvt_error, [])
      else if negb (is_continuation b4) then (codecvt_error, [])
      else decoded (c1 * 0x40000 + c2 * 0x1000 + c3 * 0x40 + c4 - 0x3C82080)
                   (ucs4_in s4)
    | _ => (codecvt_partial, [])
    end
  else (codecvt_error, []).
Proof. destruct s1 as [|b2 [|b3 [|b4 s4]]]; reflexivity. Qed.

Lemma eqb_false (a b : Z) : a <> b -> (a =? b) = false.
Proof. apply Z.eqb_neq. Qed.

Lemma decoded_scalar (c : Z) (rest : codecvt_result * list Z) :
  c <= 0x10FFFF -> decoded c rest = (fst rest, c :: snd rest).
Proof.
  intros H. unfold decoded, max_code_point. rewrite leb_true by exact H.
  reflexivity.
Qed.

(** The library reads the bytes written for one scalar as that scalar. *)
Lemma ucs4_in_to_bytes1 (c : Z) (bs rest : bytes) :
  to_bytes1 c = Some bs ->
  ucs4_in (bs ++ rest) = (fst (ucs4_in rest), c :: snd (ucs4_in rest)).
Proof.
  unfold to_bytes1. destruct (is_scalar c) eqn:Hs; [|discriminate].
  apply is_scalar_range in Hs. destruct Hs as [[H0 Hmax] _]. cbn [negb].
  destruct (digits c H0) as (Hd0 & Hd1 & Hd2 & E2 & E3 & E4).
  set (d0 := c mod 0x40) in *. set (d1 := (c / 0x40) mod 0x40) in *.
  set (d2 := (c / 0x1000) mod 0x40) in *.
  set (q2 := c / 0x40) in *. set (q3 := c / 0x1000) in *.
  set (q4 := c / 0x40000) in *.
  clearbody d0 d1 d2 q2 q3 q4.
  destruct (Z.ltb_spec c 0x80) as [H1|H1];
    [|destruct (Z.ltb_spec c 0x800) as [H2|H2];
      [|destruct (Z.ltb_spec c 0x10000) as [H3|H3]]];
  intros Hbs; apply Some_inj in Hbs; subst bs; cbn [app];
  rewrite ucs4_in_cons; cbv zeta.
  - rewrite byte_val_of_Z by lia. rewrite ltb_true by lia.
    apply decoded_scalar. exact Hmax.
  - rewrite !byte_val_of_Z by lia. rewrite is_continuation_of_Z by lia.
    rewrite 2 ltb_false by lia. rewrite ltb_true by lia. cbn [negb].
    replace ((0xC0 + q2) * 0x40 + (0x80 + d0) - 0x3080) with c by lia.
    apply decoded_scalar. exact Hmax.
  - rewrite !byte_val_of_Z by lia. rewrite !is_continuation_of_Z by lia.
    rewrite 3 ltb_false by lia. rewrite ltb_true by lia. cbn [negb].
    replace ((0xE0 + q3) * 0x1000 + (0x80 + d1) * 0x40 + (0x80 + d0) - 0xE2080)
      with c by lia.
    destruct (Z.eq_dec q3 0) as [Eq|Nq].
    + rewrite (ltb_false (0x80 + d1)) by lia. rewrite andb_false_r.
      apply decoded_scalar. exact Hmax.
    + rewrite eqb_false by lia. cbn [andb].
      apply decoded_scalar. exact Hmax.
  - rewrite !byte_val_of_Z by lia. rewrite !is_continuation_of_Z by lia.
    rewrite 4 ltb_false by lia. rewrite ltb_true by lia. cbn [negb].
    replace ((0xF0 + q4) * 0x40000 + (0x80 + d2) * 0x1000 + (0x80 + d1) * 0x40
             + (0x80 + d0) - 0x3C82080) with c by lia.
    assert (T1 : (0xF0 + q4 =? 0xF0) && (0x80 + d2 <? 0x90) = false).
    { destruct (Z.eq_dec q4 0);
        [rewrite (ltb_false (0x80 + d2)) by lia; apply andb_false_r
        |rewrite eqb_false by lia; reflexivity]. }
    assert (T2 : (0xF0 + q4 =? 0xF4) && (0x90 <=? 0x80 + d2) = false).
    { destruct (Z.eq_dec q4 4);
        [rewrite (leb_false 0x90) by lia; apply andb_false_r
        |rewrite eqb_false by lia; reflexivity]. }
    rewrite T1, T2. apply decoded_scalar. exact Hmax.
Qed.

Lemma ucs4_in_decodes (s : bytes) (cs : list Z) :
  decodes s cs -> ucs4_in s = (codecvt_ok, cs).
Proof.
  induction 1 as [|c bs rest cs Hc _ IH]; [reflexivity|].
  rewrite (ucs4_in_to_bytes1 c bs rest Hc), IH. reflexivity.
Qed.

(** On a byte sequence that the strict decoder accepts the library gives
    the same scalars. *)
Lemma wstring_convert_from_bytes_well_formed (s : bytes) (cs : list Z) :
  from_bytes s = Some cs -> wstring_convert_from_bytes s = Some cs.
Proof.
  intros H. apply from_bytes_decodes, ucs4_in_decodes in H.
  unfold wstring_convert_from_bytes. rewrite H. reflexivity.
Qed.

Lemma write_utf8_code_point_to_bytes1 (c : Z) (bs : bytes) :
  to_bytes1 c = Some bs -> write_utf8_code_point c = bs /\ c <= 0x10FFFF.
Proof.
  unfold to_bytes1, write_utf8_code_point.
  destruct (is_scalar c) eqn:Hs; [|discriminate].
  apply is_scalar_range in Hs. destruct Hs as [[H0 Hmax] _]. cbn [negb].
  destruct (Z.ltb_spec c 0x80) as [H1|H1];
    [|destruct (Z.ltb_spec c 0x800) as [H2|H2];
      [|destruct (Z.ltb_spec c 0x10000) as [H3|H3]]];
  intros Hbs; apply Some_inj in Hbs; subst bs; (split; [|exact Hmax]).
  - reflexivity.
  - rewrite leb_true by lia. rewrite !(Z.add_comm _ 0xC0), !(Z.add_comm _ 0x80).
    reflexivity.
  - rewrite leb_false, leb_true by lia.
    rewrite !(Z.add_comm _ 0xE0), !(Z.add_comm _ 0x80). reflexivity.
  - rewrite 2 leb_false by lia.
    rewrite !(Z.add_comm _ 0xF0), !(Z.add_comm _ 0x80). reflexivity.
Qed.

Lemma ucs4_out_to_bytes (cs : list Z) (s : bytes) :
  to_bytes cs = Some s -> ucs4_out cs = (codecvt_ok, s).
Proof.
  revert s. induction cs as [|c cs IH]; intros s H.
  - apply Some_inj in H. subst s. reflexivity.
  - cbn [to_bytes] in H.
    destruct (to_bytes1 c) as [bs|] eqn:Hc; [|discriminate].
    destruct (to_bytes cs) as [rest|]; [|discriminate].
    apply Some_inj in H. subst s.
    destruct (write_utf8_code_point_to_bytes1 c bs Hc) as [Hw Hmax].
    cbn [ucs4_out]. unfold max_code_point. rewrite ltb_false by lia.
    rewrite (IH rest eq_refl), Hw. reflexivity.
Qed.

(** On scalars the strict encoder accepts the library writes the same
    bytes. *)
Lemma wstring_convert_to_bytes_scalars (cs : list Z) (s : bytes) :
  to_bytes cs = Some s -> wstring_convert_to_bytes cs = Some s.
Proof.
  intros H. apply ucs4_out_to_bytes in H.
  unfold wstring_convert_to_bytes. rewrite H. reflexivity.
Qed.

Lemma utf8_to_codepoints_well_formed (fw s : bytes) (cs : list Z) :
  from_bytes s = Some cs -> utf8_to_codepoints fw s = Val cs.
Proof.
  intros H. unfold utf8_to_codepoints.
  rewrite (wstring_convert_from_bytes_well_formed s cs H). reflexivity.
Qed.

Lemma codepoints_to_utf8_scalars (tw : bytes) (cs : list Z) (s : bytes) :
  to_bytes cs = Some s -> codepoints_to_utf8 tw cs = Val s.
Proof.
  intros H. unfold codepoints_to_utf8.
  rewrite (wstring_convert_to_bytes_scalars cs s H). reflexivity.
Qed.

(** ** The codec round trip *)

Lemma is_scalar_valid (c : Z) : valid_scalar c -> is_scalar c = true.
Proof.
  intros [Hr Hs]. apply is_scalar_true; [exact Hr|].
  unfold is_surrogate. apply andb_false_iff.
  destruct (Z.leb_spec 0xD800 c); [right; apply Z.leb_gt; lia | left; reflexivity].
Qed.

(** C5: the codec round-trips.  Encoding a sequence of valid scalars (in
    the Unicode range, no surrogate) succeeds and decoding the bytes gives
    the sequence back; every well-formed UTF-8 byte sequence decodes, and
    encoding what it decodes to gives the byte sequence back.  Both hold of
    the codec of the spec's contract, [from_bytes] and [to_bytes], and of
    [utf8_to_codepoints] and [codepoints_to_utf8] as the program runs them;
    and whatever the decoder of the contract accepts is decoded alike by
    the program and encodes back to the same bytes. *)
Theorem codec_round_trip (from_bytes_what to_bytes_what : bytes) :
  (forall s : list Z,
      Forall valid_scalar s ->
      exists b, to_bytes s = Some b /\ from_bytes b = Some s /\
                codepoints_to_utf8 to_bytes_what s = Val b /\
                utf8_to_codepoints from_bytes_what b = Val s) /\
  (forall b : bytes,
      well_formed_utf8 b ->
      exists s, from_bytes b = Some s /\ to_bytes s = Some b /\
                utf8_to_codepoints from_bytes_what b = Val s /\
                codepoints_to_utf8 to_bytes_what s = Val b) /\
  (forall (b : bytes) (s : list Z),
      from_bytes b = Some s ->
      to_bytes s = Some b /\
      utf8_to_codepoints from_bytes_what b = Val s /\
      codepoints_to_utf8 to_bytes_what s = Val b).
Proof.
  assert (Hback : forall (b : bytes) (s : list Z),
             from_bytes b = Some s ->
             to_bytes s = Some b /\
             utf8_to_codepoints from_bytes_what b = Val s /\
             codepoints_to_utf8 to_bytes_what s = Val b).
  { intros b s H.
    assert (Henc : to_bytes s = Some b)
      by (apply decodes_to_bytes, from_bytes_decodes, H).
    split; [exact Henc|].
    split; [apply utf8_to_codepoints_well_formed; exact H|].
    apply codepoints_to_utf8_scalars. exact Henc. }
  split; [|split; [|exact Hback]].
  - intros s Hs.
    destruct (to_bytes_total s) as [b Hb].
    { eapply Forall_impl; [|exact Hs]. intros c. apply is_scalar_valid. }
    assert (Hdec : from_bytes b = Some s)
      by (apply decodes_from_bytes, to_bytes_decodes, Hb).
    exists b. split; [exact Hb|]. split; [exact Hdec|].
    split; [apply codepoints_to_utf8_scalars; exact Hb|].
    apply utf8_to_codepoints_well_formed, Hdec.
  - intros b Hb. destruct (well_formed_from_bytes b Hb) as [s Hs].
    exists s. split; [exact Hs|]. apply Hback, Hs.
Qed.

Lemma codec_round_trip_witness :
  (exists b, to_bytes [0x63; 0xE9; 0x20AC; 0x1F600] = Some b /\
             from_bytes b = Some [0x63; 0xE9; 0x20AC; 0x1F600] /\
             codepoints_to_utf8 (lit "to_bytes") [0x63; 0xE9; 0x20AC; 0x1F600] = Val b /\
             utf8_to_codepoints (lit "from_bytes") b = Val [0x63; 0xE9; 0x20AC; 0x1F600]) /\
  codepoints_to_utf8 (lit "to_bytes") [0x63; 0xE9; 0x20AC; 0x1F600]
  = Val [x63; xc3; xa9; xe2; x82; xac; xf0; x9f; x98; x80].
Proof.
  split.
  - apply (proj1 (codec_round_trip (lit "from_bytes") (lit "to_bytes"))).
    unfold valid_scalar. repeat constructor; lia.
  - apply (proj2 (proj2 (codec_round_trip (lit "from_bytes") (lit "to_bytes")))
             [x63; xc3; xa9; xe2; x82; xac; xf0; x9f; x98; x80]).
    reflexivity.
Defined.

(** Outside the well-formed byte sequences the round trip ends: the
    program's decoder drops a sequence that the end of the input cuts
    short, so what comes back is a proper prefix of what went in. *)
Example round_trip_cut_tail :
  utf8_to_codepoints (lit "from_bytes") [x61; xc3] = Val [0x61] /\
  codepoints_to_utf8 (lit "to_bytes") [0x61] = Val [x61].
Proof. split; reflexivity. Qed.

(** ** The line counts of the two messages *)

Lemma remap_decodes (s : bytes) (cs : list Z) :
  decodes s cs -> exists s', to_bytes (map cp437_to_unicode cs) = Some s'.
Proof.
  intros H. apply to_bytes_total.
  induction H as [|c bs rest cs Hc _ IH]; [constructor|].
  cbn [map]. constructor; [|exact IH].
  apply cp437_scalar. apply (to_bytes1_scalar c bs Hc).
Qed.

Lemma remap_split_length (s s' : bytes) (cs : list Z) :
  from_bytes s = Some cs -> to_bytes (map cp437_to_unicode cs) = Some s' ->
  length (split s newline) = length (split s' newline).
Proof.
  intros H H'. rewrite !split_length.
  apply (remap_tokens_from s s' cs);
    [apply from_bytes_decodes | apply to_bytes_decodes]; assumption.
Qed.

(** ** Counting graphemes without leaving the string *)

Lemma lead2_false_below (b : byte) : byte_val b < 0xC0 -> lead2 b = false.
Proof. intros H. unfold lead2. rewrite leb_false by lia. reflexivity. Qed.

Lemma lead2_false_above (b : byte) : 0xE0 <= byte_val b -> lead2 b = false.
Proof.
  intros H. unfold lead2. rewrite ltb_false by lia. apply andb_false_r.
Qed.

Lemma lead2_false_continuation (b : byte) :
  is_continuation b = true -> lead2 b = false.
Proof.
  intros H. apply is_continuation_range in H. apply lead2_false_below. lia.
Qed.

Lemma utf8_form_grouped (bs rest : bytes) :
  utf8_form bs -> grouped rest -> grouped (bs ++ rest).
Proof.
  intros Hf Hrest.
  destruct Hf as [b0 Hb|b0 b1 Hb H1|b0 b1 b2 Hb H1 H2|b0 b1 b2 b3 Hb H1 H2 H3];
    cbn [app].
  - apply grouped_one; [apply lead2_false_below; lia | exact Hrest].
  - apply grouped_two; [|apply continuation_not_newline; exact H1 | exact Hrest].
    unfold lead2. rewrite leb_true, ltb_true by lia. reflexivity.
  - apply grouped_one; [apply lead2_false_above; lia|].
    do 2 (apply grouped_one; [apply lead2_false_continuation; assumption|]).
    exact Hrest.
  - apply grouped_one; [apply lead2_false_above; lia|].
    do 3 (apply grouped_one; [apply lead2_false_continuation; assumption|]).
    exact Hrest.
Qed.

Lemma decodes_grouped (s : bytes) (cs : list Z) : decodes s cs -> grouped s.
Proof.
  induction 1 as [|c bs rest cs Hc _ IH]; [constructor|].
  apply utf8_form_grouped; [apply (to_bytes1_form c bs Hc) | exact IH].
Qed.

Lemma lead2_not_newline (b : byte) : lead2 b = true -> Byte.eqb b newline = false.
Proof.
  intros H. destruct (Byte.eqb b newline) eqn:E; [|reflexivity].
  apply Byte.byte_dec_bl in E. subst b. discriminate.
Qed.

Lemma eqb_newline_false (b : byte) : b <> newline -> Byte.eqb b newline = false.
Proof.
  intros H. destruct (Byte.eqb b newline) eqn:E; [|reflexivity].
  apply Byte.byte_dec_bl in E. contradiction.
Qed.

Lemma grouped_getline_chars (s : bytes) :
  grouped s ->
  grouped (fst (getline_chars s newline)) /\
  grouped (snd (getline_chars s newline)).
Proof.
  induction 1 as [|b rest Hb Hrest IH|b b' rest Hb Hb' Hrest IH].
  - split; constructor.
  - cbn [getline_chars]. destruct (Byte.eqb b newline).
    + split; [constructor | exact Hrest].
    + destruct (getline_chars rest newline) as [t r]. cbn [fst snd] in *.
      split; [apply grouped_one; tauto | tauto].
  - cbn [getline_chars].
    rewrite (lead2_not_newline b Hb), (eqb_newline_false b' Hb').
    destruct (getline_chars rest newline) as [t r]. cbn [fst snd] in *.
    split; [apply grouped_two; tauto | tauto].
Qed.

Lemma grouped_split_loop_bounded (n : nat) :
  forall (s : bytes) (tokens : list bytes),
    (length s <= n)%nat -> grouped s -> Forall grouped tokens ->
    Forall grouped (split_loop s newline tokens).
Proof.
  induction n as [|n IH]; intros s tokens Hn Hs Htokens; rewrite split_loop_eq.
  - destruct s; [exact Htokens | simpl in Hn; lia].
  - destruct (getline s newline) as [[token rest]|] eqn:Hget; [|exact Htokens].
    pose proof (getline_rest_lt s newline token rest Hget).
    destruct s as [|c s]; [discriminate|].
    unfold getline in Hget. apply Some_inj in Hget.
    pose proof (grouped_getline_chars (c :: s) Hs) as [Ht Hr].
    rewrite Hget in Ht, Hr. cbn [fst snd] in Ht, Hr.
    apply IH; [lia | exact Hr|].
    apply Forall_app. split; [exact Htokens | constructor; [exact Ht | constructor]].
Qed.

Lemma grouped_split (s : bytes) :
  grouped s -> Forall grouped (split s newline).
Proof.
  intros H. apply (grouped_split_loop_bounded (length s)); [lia | exact H | constructor].
Qed.

Lemma advance_lead2 (sg : bool) (b : byte) :
  advance sg b = if lead2 b then 2%nat else 1%nat.
Proof. apply advance_spec. Qed.

Lemma nth_error_middle (pre : bytes) (b : byte) (rest : bytes) :
  nth_error (pre ++ b :: rest) (length pre) = Some b.
Proof. rewrite nth_error_app2 by lia. rewrite Nat.sub_diag. reflexivity. Qed.

Lemma grouped_count_loop (sg : bool) (s : bytes) :
  grouped s ->
  forall (pre : bytes) (n : nat),
    exists k, count_loop sg (pre ++ s) (length pre) n = Counted k.
Proof.
  induction 1 as [|b rest Hb Hrest IH|b b' rest Hb Hb' Hrest IH]; intros pre n.
  - exists n. rewrite count_loop_eq, app_nil_r.
    replace (nth_error pre (length pre)) with (@None byte)
      by (symmetry; apply nth_error_None; lia).
    rewrite Nat.eqb_refl. reflexivity.
  - rewrite count_loop_eq, nth_error_middle, advance_lead2, Hb.
    destruct (IH (pre ++ [b]) (S n)) as [k Hk]. exists k.
    rewrite <- Hk, <- app_assoc, length_app. reflexivity.
  - rewrite count_loop_eq, nth_error_middle, advance_lead2, Hb.
    destruct (IH (pre ++ [b; b']) (S n)) as [k Hk]. exists k.
    rewrite <- Hk, <- app_assoc, length_app. reflexivity.
Qed.

Lemma grouped_get_grapheme_count (sg : bool) (s : bytes) :
  grouped s -> exists k, get_grapheme_count sg s = Counted k.
Proof. intros H. apply (grouped_count_loop sg s H [] 0%nat). Qed.

(** ** The program: what a run can do *)

Lemma appends_nil (s : io) : appends s [] [] = s.
Proof. destruct s. unfold appends. cbn. rewrite !app_nil_r. reflexivity. Qed.

Lemma appends_appends (s : io) (o1 e1 o2 e2 : bytes) :
  appends (appends s o1 e1) o2 e2 = appends s (o1 ++ o2) (e1 ++ e2).
Proof. unfold appends. cbn. rewrite !app_assoc. reflexivity. Qed.

Lemma prints_ret : prints (ret tt).
Proof. intros s. exists []. unfold ret. rewrite appends_nil. reflexivity. Qed.

Lemma prints_bind (m k : M unit) :
  prints m -> prints k -> prints (m ;; k)%prog.
Proof.
  intros Hm Hk s. unfold bind.
  destruct (Hm s) as [o1 ->]. destruct (Hk (appends s o1 [])) as [o2 ->].
  exists (o1 ++ o2). rewrite appends_appends. reflexivity.
Qed.

Lemma prints_write_cout (text : bytes) : prints (write_cout text).
Proof.
  intros s. exists text. unfold write_cout, appends.
  rewrite app_nil_r. reflexivity.
Qed.

Lemma prints_for_each {A} (l : list A) (body : A -> M unit) :
  (forall x, In x l -> prints (body x)) -> prints (for_each l body).
Proof.
  induction l as [|x l IH]; intros H; cbn [for_each]; [apply prints_ret|].
  apply prints_bind; [apply H; left; reflexivity|].
  apply IH. intros y Hy. apply H. right. exact Hy.
Qed.

Create HintDb prints.
#[local] Hint Resolve prints_ret prints_bind prints_write_cout : prints.

Section ProgramFacts.

Variable char_is_signed : bool.
Variable from_bytes_what to_bytes_what : bytes.
Variable module : Type.
Variable open_module : bytes -> exn + module.
Variable get_metadata : module -> bytes -> bytes.

Let report_line' := report_line char_is_signed.
Let compare_and_report' := compare_and_report char_is_signed.
Let check_messages' :=
  check_messages char_is_signed from_bytes_what to_bytes_what module get_metadata.
Let process_file' :=
  process_file char_is_signed from_bytes_what to_bytes_what module
               open_module get_metadata.
Let main' :=
  main char_is_signed from_bytes_what to_bytes_what module
       open_module get_metadata.

Lemma report_line_prints (lines new_lines : list bytes) (i : nat) :
  (i < length lines)%nat -> length lines = length new_lines ->
  Forall grouped lines ->
  prints (report_line' lines new_lines i).
Proof.
  intros Hi Hlen Hg. unfold report_line', report_line.
  destruct (nth_error lines i) as [line|] eqn:Hl;
    [|apply nth_error_None in Hl; lia].
  destruct (nth_error new_lines i) as [new_line|] eqn:Hn;
    [|apply nth_error_None in Hn; lia].
  destruct (diff_only && bytes_eqb line new_line); [apply prints_ret|].
  assert (Hline : grouped line).
  { rewrite Forall_forall in Hg. apply Hg. eapply nth_error_In. exact Hl. }
  destruct (grouped_get_grapheme_count char_is_signed line Hline) as [k ->].
  destruct (k <? 80)%nat; auto 10 with prints.
Qed.

Lemma compare_and_report_mismatch (filename message new_message : bytes) (s : io) :
  length (split message newline) <> length (split new_message newline) ->
  compare_and_report' filename message new_message s
  = (Exn (runtime_error (lit "internal error: size mismatch")), s).
Proof.
  intros H. unfold compare_and_report', compare_and_report.
  apply Nat.eqb_neq in H. rewrite H. reflexivity.
Qed.

Lemma compare_and_report_prints (filename message new_message : bytes) :
  length (split message newline) = length (split new_message newline) ->
  grouped message ->
  prints (compare_and_report' filename message new_message).
Proof.
  intros Hlen Hg. unfold compare_and_report', compare_and_report.
  rewrite Hlen, Nat.eqb_refl. cbn [negb].
  destruct (bytes_eqb message new_message); [apply prints_ret|].
  apply prints_bind; [apply prints_write_cout|].
  apply prints_bind; [|apply prints_write_cout].
  apply prints_for_each. intros i Hi. apply in_seq in Hi.
  apply report_line_prints; [lia | exact Hlen | apply grouped_split; exact Hg].
Qed.

(** On a message that is well-formed UTF-8 [check_messages] goes on to the
    comparison with the message that the strict codec gives. *)
Lemma check_messages_well_formed (filename : bytes) (mod_ : module) (s : io)
      (cps : list Z) (new_message : bytes) :
  let message := get_metadata mod_ (lit "message_raw") in
  message <> [] ->
  from_bytes message = Some cps ->
  to_bytes (map cp437_to_unicode cps) = Some new_message ->
  check_messages' filename mod_ s
  = compare_and_report' filename message new_message s.
Proof.
  intros message Hne Hdec Henc. unfold check_messages', check_messages.
  fold message. destruct message as [|b0 m] eqn:E; [contradiction|].
  unfold bind at 1, lift at 1.
  rewrite (utf8_to_codepoints_well_formed _ _ _ Hdec).
  unfold bind at 1, lift at 1.
  rewrite (codepoints_to_utf8_scalars _ _ _ Henc). reflexivity.
Qed.

(** On a message that is well-formed UTF-8 [check_messages] returns after
    writing to [std::cout] only. *)
Lemma check_messages_prints (filename : bytes) (mod_ : module) (cps : list Z) :
  from_bytes (get_metadata mod_ (lit "message_raw")) = Some cps ->
  prints (check_messages' filename mod_).
Proof.
  intros Hdec s.
  destruct (list_eq_dec Byte.byte_eq_dec
              (get_metadata mod_ (lit "message_raw")) []) as [E|Hne].
  { unfold check_messages', check_messages. rewrite E. apply prints_ret. }
  pose proof (from_bytes_decodes _ _ Hdec) as Hd.
  destruct (remap_decodes _ _ Hd) as [new_message Hnew].
  rewrite (check_messages_well_formed filename mod_ s cps new_message Hne Hdec Hnew).
  apply compare_and_report_prints.
  - apply (remap_split_length _ _ cps); assumption.
  - apply (decodes_grouped _ cps Hd).
Qed.

Lemma cout_only_prints (m : M unit) : prints m -> cout_only m.
Proof. intros H s. destruct (H s) as [out Hs]. exists out. left. exact Hs. Qed.

Lemma cout_only_undefined : cout_only undefined.
Proof.
  intros s. exists []. right. unfold undefined. rewrite appends_nil. reflexivity.
Qed.

Lemma cout_only_bind (m k : M unit) :
  cout_only m -> cout_only k -> cout_only (m ;; k)%prog.
Proof.
  intros Hm Hk s. unfold bind.
  destruct (Hm s) as [o1 [-> | ->]].
  - destruct (Hk (appends s o1 [])) as [o2 [-> | ->]];
      exists (o1 ++ o2); rewrite appends_appends; [left | right]; reflexivity.
  - exists o1. right. reflexivity.
Qed.

Lemma cout_only_for_each {A} (l : list A) (body : A -> M unit) :
  (forall x, cout_only (body x)) -> cout_only (for_each l body).
Proof.
  intros H. induction l as [|x l IH]; cbn [for_each].
  - apply cout_only_prints, prints_ret.
  - apply cout_only_bind; [apply H | exact IH].
Qed.

Lemma cout_only_report_line (lines new_lines : list bytes) (i : nat) :
  cout_only (report_line' lines new_lines i).
Proof.
  unfold report_line', report_line.
  destruct (nth_error lines i); [|apply cout_only_undefined].
  destruct (nth_error new_lines i); [|apply cout_only_undefined].
  destruct (diff_only && _); [apply cout_only_prints, prints_ret|].
  destruct (get_grapheme_count _ _) as [k|]; [|apply cout_only_undefined].
  apply cout_only_prints. destruct (k <? 80)%nat; auto 10 with prints.
Qed.

(** [check_messages] on any message at all: it returns after writing to
    [std::cout] only; or it throws before it has written anything; or it
    ends in undefined behaviour after writing to [std::cout] only. *)
Lemma check_messages_outcome (filename : bytes) (mod_ : module) (s : io) :
  (exists out, check_messages' filename mod_ s = (Val tt, appends s out [])) \/
  (exists e, check_messages' filename mod_ s = (Exn e, s)) \/
  (exists out, check_messages' filename mod_ s = (Undefined, appends s out [])).
Proof.
  unfold check_messages', check_messages.
  destruct (get_metadata mod_ (lit "message_raw")) as [|b0 message].
  { left. apply prints_ret. }
  unfold bind, lift.
  destruct (utf8_to_codepoints from_bytes_what (b0 :: message)) as [cps|e|];
    [|right; left; exists e; reflexivity
     |right; right; exists []; rewrite appends_nil; reflexivity].
  destruct (codepoints_to_utf8 to_bytes_what (map cp437_to_unicode cps))
    as [new_message|e|];
    [|right; left; exists e; reflexivity
     |right; right; exists []; rewrite appends_nil; reflexivity].
  unfold compare_and_report.
  destruct (negb _); [right; left; eexists; reflexivity|].
  assert (H : cout_only
                (if bytes_eqb (b0 :: message) new_message then ret tt
                 else (write_cout (lit "Difference in " ++ filename ++ lit ":"
                                   ++ [newline; newline]) ;;
                       for_each (seq 0 (length (split (b0 :: message) newline)))
                                (report_line char_is_signed
                                   (split (b0 :: message) newline)
                                   (split new_message newline)) ;;
                       write_cout endl)%prog)).
  { destruct (bytes_eqb _ _); [apply cout_only_prints, prints_ret|].
    apply cout_only_bind; [apply cout_only_prints, prints_write_cout|].
    apply cout_only_bind; [|apply cout_only_prints, prints_write_cout].
    apply cout_only_for_each. intros i. apply cout_only_report_line. }
  destruct (H s) as [out [Hs|Hs]]; [left | right; right]; exists out; exact Hs.
Qed.

Lemma try_catch_caught (body : M unit) (filename : bytes) (e : exn) (s s' : io) :
  body s = (Exn e, s') ->
  try_catch body (report_failure filename) s
  = (Val tt, appends s' [] (failure_report filename e)).
Proof.
  intros H. unfold try_catch. rewrite H. unfold report_failure, write_cerr, appends.
  rewrite app_nil_r. reflexivity.
Qed.

(** [process_file] around a module that opened. *)
Lemma process_file_opened (filename : bytes) (mod_ : module) (s : io) :
  open_module filename = inr mod_ ->
  process_file' filename s
  = try_catch (check_messages' filename mod_) (report_failure filename) s.
Proof.
  intros H. unfold process_file', process_file, try_catch, bind at 1, lift.
  rewrite H. reflexivity.
Qed.

Lemma process_file_open_fails (filename : bytes) (e : exn) (s : io) :
  open_module filename = inl e ->
  process_file' filename s = (Val tt, appends s [] (failure_report filename e)).
Proof.
  intros H. apply try_catch_caught. unfold bind, lift. rewrite H. reflexivity.
Qed.

Lemma process_file_throws (filename : bytes) (mod_ : module) (e : exn) (s : io) :
  open_module filename = inr mod_ ->
  check_messages' filename mod_ s = (Exn e, s) ->
  process_file' filename s = (Val tt, appends s [] (failure_report filename e)).
Proof.
  intros H He. rewrite (process_file_opened filename mod_ s H).
  apply try_catch_caught. exact He.
Qed.

Lemma process_file_decode_fails (filename : bytes) (mod_ : module) (s : io) :
  open_module filename = inr mod_ ->
  wstring_convert_from_bytes (get_metadata mod_ (lit "message_raw")) = None ->
  process_file' filename s
  = (Val tt, appends s [] (failure_report filename (range_error from_bytes_what))).
Proof.
  intros H Hdec. apply (process_file_throws filename mod_ _ s H).
  unfold check_messages', check_messages.
  destruct (get_metadata mod_ (lit "message_raw")) as [|b0 message];
    [discriminate|].
  unfold bind at 1, lift at 1, utf8_to_codepoints. rewrite Hdec. reflexivity.
Qed.

(** [process_file] on any file at all: no exception leaves it; it returns
    after writing to one stream at most, or it ends in undefined behaviour
    after writing to [std::cout] only. *)
Lemma process_file_outcome (filename : bytes) (s : io) :
  exists out err,
    (process_file' filename s = (Val tt, appends s out err) /\
     (err = [] \/ (out = [] /\ exists e, err = failure_report filename e))) \/
    (process_file' filename s = (Undefined, appends s out []) /\ err = []).
Proof.
  destruct (open_module filename) as [e|mod_] eqn:Hopen.
  - exists [], (failure_report filename e). left.
    split; [apply process_file_open_fails, Hopen|].
    right. split; [reflexivity | exists e; reflexivity].
  - destruct (check_messages_outcome filename mod_ s)
      as [[out Hout]|[[e He]|[out Hout]]].
    + exists out, []. left. split; [|left; reflexivity].
      rewrite (process_file_opened filename mod_ s Hopen).
      unfold try_catch. rewrite Hout. reflexivity.
    + exists [], (failure_report filename e). left.
      split; [apply (process_file_throws filename mod_ e s Hopen He)|].
      right. split; [reflexivity | exists e; reflexivity].
    + exists out, []. right. split; [|reflexivity].
      rewrite (process_file_opened filename mod_ s Hopen).
      unfold try_catch. rewrite Hout. reflexivity.
Qed.

(** [process_file] returns on a sound file. *)
Lemma process_file_returns (filename : bytes) (s : io) :
  sound_file open_module get_metadata filename ->
  exists out err, process_file' filename s = (Val tt, appends s out err).
Proof.
  unfold sound_file. intros Hsound.
  destruct (open_module filename) as [e|mod_] eqn:Hopen.
  - exists [], (failure_report filename e). apply process_file_open_fails, Hopen.
  - destruct Hsound as [Hnone|[cps Hdec]].
    + exists [], (failure_report filename (range_error from_bytes_what)).
      apply (process_file_decode_fails filename mod_ s Hopen Hnone).
    + destruct (check_messages_prints filename mod_ cps Hdec s) as [out Hout].
      exists out, []. rewrite (process_file_opened filename mod_ s Hopen).
      unfold try_catch. rewrite Hout. reflexivity.
Qed.

Lemma for_each_process_file_returns (files : list bytes) (s : io) :
  Forall (sound_file open_module get_metadata) files ->
  exists out err, for_each files process_file' s = (Val tt, appends s out err).
Proof.
  intros Hall. revert s. induction Hall as [|f files Hf _ IH]; intros s.
  - exists [], []. cbn [for_each]. unfold ret. rewrite appends_nil. reflexivity.
  - cbn [for_each]. unfold bind.
    destruct (process_file_returns f s Hf) as (o1 & e1 & ->).
    destruct (IH (appends s o1 e1)) as (o2 & e2 & ->).
    exists (o1 ++ o2), (e1 ++ e2). rewrite appends_appends. reflexivity.
Qed.

(** [main] returns 0 when every file of the run is sound. *)
Lemma main_returns (argv : list bytes) (s : io) :
  Forall (sound_file open_module get_metadata) (tl argv) ->
  exists out err, main' argv s = (Val 0, appends s out err).
Proof.
  intros Hall. unfold main', main, bind.
  destruct (for_each_process_file_returns (tl argv) s Hall) as (out & err & H).
  fold process_file'. rewrite H. exists out, err. reflexivity.
Qed.

End ProgramFacts.

(** ** The claims about lines and failures *)

(** For a message that is well-formed UTF-8 the remapped scalars encode,
    and the converted message has as many lines as the original. *)
Lemma remap_keeps_line_count_well_formed
      (from_bytes_what to_bytes_what message : bytes) (codepoints : list Z) :
  from_bytes message = Some codepoints ->
  utf8_to_codepoints from_bytes_what message = Val codepoints /\
  exists new_message,
    codepoints_to_utf8 to_bytes_what (map cp437_to_unicode codepoints)
    = Val new_message /\
    length (split message newline) = length (split new_message newline).
Proof.
  intros H. split; [apply utf8_to_codepoints_well_formed; exact H|].
  destruct (remap_decodes _ _ (from_bytes_decodes _ _ H)) as [new_message Hnew].
  exists new_message.
  split; [apply codepoints_to_utf8_scalars; exact Hnew|].
  apply (remap_split_length _ _ codepoints); assumption.
Qed.

(** C4: at the failing input, the message "a", newline, 0xC2, the converter
    drops the cut sequence and decodes "a", newline without an exception;
    the converted message is "a", newline, which splits into one line
    where the original splits into two, and [check_messages] throws
    "internal error: size mismatch". *)
Theorem size_mismatch_reached
  (char_is_signed : bool) (from_bytes_what to_bytes_what filename : bytes)
  (s : io) :
  let message := [x61; x0a; xc2] in
  utf8_to_codepoints from_bytes_what message = Val [0x61; 0x0A] /\
  codepoints_to_utf8 to_bytes_what (map cp437_to_unicode [0x61; 0x0A])
  = Val [x61; x0a] /\
  split message newline = [[x61]; [xc2]] /\
  split [x61; x0a] newline = [[x61]] /\
  check_messages char_is_signed from_bytes_what to_bytes_what bytes
                 (fun m _ => m) filename message s
  = (Exn (runtime_error (lit "internal error: size mismatch")), s).
Proof. repeat split. Qed.

(** C3, as the claim states it, fails: in a run over two files, the first
    with the message "a", newline, 0xC2, whose lines number two against one
    for its conversion, the size mismatch is thrown, caught in
    [process_file] and reported on [std::cerr]; the second file is processed
    and reported on [std::cout], and [main] returns 0. *)
Lemma size_mismatch_counterexample :
  let open_module (f : bytes) : exn + bytes :=
    if bytes_eqb f (lit "bad") then inr [x61; x0a; xc2]
    else inr [x61; xc2; x81; x62] in
  length (split [x61; x0a; xc2] newline) = 2%nat /\
  codepoints_to_utf8 (lit "to_bytes") (map cp437_to_unicode [0x61; 0x0A])
  = Val [x61; x0a] /\
  length (split [x61; x0a] newline) = 1%nat /\
  main true (lit "from_bytes") (lit "to_bytes") bytes open_module
       (fun m _ => m) [lit "prog"; lit "bad"; lit "ok"]
       {| cout := []; cerr := [] |}
  = (Val 0,
     {| cout := lit "Difference in ok:" ++ [newline; newline]
                ++ [x61; xc2; x81; x62] ++ repeat " "%byte 77 ++ lit " | "
                ++ [x61; xc3; xbc; x62] ++ [newline; newline];
        cerr := lit "can't open bad: internal error: size mismatch"
                ++ [newline] |}).
Proof. repeat split. Qed.

(** C3 (amended): when the lines of the message and of its conversion
    differ in number, [check_messages] throws [std::runtime_error]
    "internal error: size mismatch" before it prints anything; the [catch]
    clause of [process_file] takes it like any other failure of the file:
    the report goes to [std::cerr], [process_file] returns normally, and
    [main] goes on with the files that follow exactly as it would without
    the file. *)
Theorem size_mismatch_is_reported
  (char_is_signed : bool) (from_bytes_what to_bytes_what : bytes)
  (module : Type) (open_module : bytes -> exn + module)
  (get_metadata : module -> bytes -> bytes)
  (filename : bytes) (mod_ : module) (codepoints : list Z)
  (new_message : bytes) (s : io) :
  open_module filename = inr mod_ ->
  utf8_to_codepoints from_bytes_what (get_metadata mod_ (lit "message_raw"))
  = Val codepoints ->
  codepoints_to_utf8 to_bytes_what (map cp437_to_unicode codepoints)
  = Val new_message ->
  length (split (get_metadata mod_ (lit "message_raw")) newline)
  <> length (split new_message newline) ->
  let text := lit "can't open " ++ filename
              ++ lit ": internal error: size mismatch" ++ endl in
  check_messages char_is_signed from_bytes_what to_bytes_what module
                 get_metadata filename mod_ s
  = (Exn (runtime_error (lit "internal error: size mismatch")), s) /\
  process_file char_is_signed from_bytes_what to_bytes_what module
               open_module get_metadata filename s
  = (Val tt, appends s [] text) /\
  forall (prog : bytes) (files : list bytes),
    main char_is_signed from_bytes_what to_bytes_what module open_module
         get_metadata (prog :: filename :: files) s
    = main char_is_signed from_bytes_what to_bytes_what module open_module
           get_metadata (prog :: files) (appends s [] text).
Proof.
  intros Hopen Hdec Henc Hne text.
  assert (Hthrow :
            check_messages char_is_signed from_bytes_what to_bytes_what module
                           get_metadata filename mod_ s
            = (Exn (runtime_error (lit "internal error: size mismatch")), s)).
  { unfold check_messages.
    destruct (get_metadata mod_ (lit "message_raw")) as [|b0 message].
    - exfalso. apply Hne.
      assert (codepoints = []) by (cbv in Hdec; congruence). subst codepoints.
      assert (new_message = []) by (cbv in Henc; congruence). subst new_message.
      reflexivity.
    - unfold bind, lift. rewrite Hdec, Henc.
      apply compare_and_report_mismatch. exact Hne. }
  assert (Hfile :
            process_file char_is_signed from_bytes_what to_bytes_what module
                         open_module get_metadata filename s
            = (Val tt, appends s [] text)).
  { apply (process_file_throws _ _ _ _ _ _ filename mod_ _ s Hopen Hthrow). }
  split; [exact Hthrow|]. split; [exact Hfile|].
  intros prog files. unfold main. cbn [tl for_each]. unfold bind at 1 2.
  rewrite Hfile. reflexivity.
Qed.

Lemma size_mismatch_is_reported_witness :
  process_file true (lit "from_bytes") (lit "to_bytes") bytes
               (fun _ => inr [x61; x0a; xc2]) (fun m _ => m) (lit "f.mod")
               {| cout := []; cerr := [] |}
  = (Val tt,
     appends {| cout := []; cerr := [] |} []
             (lit "can't open " ++ lit "f.mod"
              ++ lit ": internal error: size mismatch" ++ endl)).
Proof.
  refine (proj1 (proj2 (size_mismatch_is_reported
            true (lit "from_bytes") (lit "to_bytes") bytes
            (fun _ => inr [x61; x0a; xc2]) (fun m _ => m) (lit "f.mod")
            [x61; x0a; xc2] [0x61; 0x0A] [x61; x0a] {| cout := []; cerr := [] |}
            eq_refl eq_refl eq_refl _))).
  vm_compute. discriminate.
Defined.

(** C7: at the failing input, a run over one file whose message is "a"
    followed by a lone 0xC3, the converter drops the cut sequence, the
    message differs from its conversion "a", [check_messages] prints the
    header and asks [get_grapheme_count] for the count of the line, whose
    iterator leaves the string: the run ends in undefined behaviour, with
    the header on [std::cout], and [main] does not return 0. *)
Theorem main_overruns
  (char_is_signed : bool) (from_bytes_what to_bytes_what prog filename : bytes)
  (s : io) :
  utf8_to_codepoints from_bytes_what [x61; xc3] = Val [0x61] /\
  get_grapheme_count char_is_signed [x61; xc3] = PastTheEnd 3 /\
  main char_is_signed from_bytes_what to_bytes_what bytes
       (fun _ => inr [x61; xc3]) (fun m _ => m) [prog; filename] s
  = (Undefined,
     {| cout := cout s ++ lit "Difference in " ++ filename ++ lit ":"
                ++ [newline; newline];
        cerr := cerr s |}).
Proof.
  split; [reflexivity|]. split; [destruct char_is_signed; reflexivity|].
  unfold main. cbn [tl for_each]. unfold bind at 1 2.
  unfold process_file, try_catch, bind at 1, lift. cbn [of_sum].
  unfold check_messages. unfold bind at 1, lift at 1.
  change (utf8_to_codepoints from_bytes_what [x61; xc3]) with (Val [0x61]).
  cbv beta iota. unfold bind at 1, lift at 1.
  change (codepoints_to_utf8 to_bytes_what (map cp437_to_unicode [0x61]))
    with (Val [x61]).
  cbv beta iota. unfold compare_and_report.
  change (split [x61; xc3] newline) with [[x61; xc3]].
  change (split [x61] newline) with [[x61]].
  cbn [length Nat.eqb negb seq for_each].
  change (bytes_eqb [x61; xc3] [x61]) with false. cbv beta iota.
  unfold report_line. cbn [nth_error].
  change (bytes_eqb [x61; xc3] [x61]) with false. rewrite andb_false_r.
  replace (get_grapheme_count char_is_signed [x61; xc3]) with (PastTheEnd 3)
    by (destruct char_is_signed; reflexivity).
  reflexivity.
Qed.

(** A run over a file that is no module, a file whose message holds a lone
    byte 0x81, and a file with the message "a", U+0081, "b". *)
Example main_run :
  let open_module (f : bytes) : exn + bytes :=
    if bytes_eqb f (lit "bad") then inl (module_error (lit "not a module"))
    else if bytes_eqb f (lit "raw") then inr [x61; x81; x62]
    else inr [x61; xc2; x81; x62] in
  main true (lit "from_bytes") (lit "to_bytes") bytes open_module
       (fun m _ => m) [lit "prog"; lit "bad"; lit "raw"; lit "ok"]
       {| cout := []; cerr := [] |}
  = (Val 0,
     {| cout := lit "Difference in ok:" ++ [newline; newline]
                ++ [x61; xc2; x81; x62] ++ repeat " "%byte 77 ++ lit " | "
                ++ [x61; xc3; xbc; x62] ++ [newline; newline];
        cerr := lit "can't open bad: not a module" ++ [newline]
                ++ lit "can't open raw: from_bytes" ++ [newline] |}).
Proof. vm_compute. reflexivity. Qed.

(** A string whose last byte is 110xxxxx, and is not itself the byte
    skipped after an earlier 110xxxxx byte, sends the iterator one past
    [s.end()]. *)
Lemma count_loop_overruns (sg : bool) (s : bytes) (b : byte) :
  grouped s -> lead2 b = true ->
  forall (pre : bytes) (n : nat),
    count_loop sg (pre ++ s ++ [b]) (length pre) n
    = PastTheEnd (S (length (pre ++ s ++ [b]))).
Proof.
  intros Hs Hb.
  induction Hs as [|c rest Hc Hrest IH|c c' rest Hc Hc' Hrest IH]; intros pre n.
  - cbn [app]. rewrite count_loop_eq, nth_error_middle, advance_lead2, Hb.
    rewrite count_loop_eq.
    replace (nth_error (pre ++ [b]) (length pre + 2)) with (@None byte)
      by (symmetry; apply nth_error_None; rewrite length_app; simpl; lia).
    replace (length pre + 2 =? length (pre ++ [b]))%nat with false
      by (symmetry; apply Nat.eqb_neq; rewrite length_app; simpl; lia).
    f_equal. rewrite length_app. simpl. lia.
  - cbn [app]. rewrite count_loop_eq, nth_error_middle, advance_lead2, Hc.
    specialize (IH (pre ++ [c]) (S n)).
    rewrite <- app_assoc, length_app in IH. exact IH.
  - cbn [app]. rewrite count_loop_eq, nth_error_middle, advance_lead2, Hc.
    specialize (IH (pre ++ [c; c']) (S n)).
    rewrite <- app_assoc, length_app in IH. exact IH.
Qed.

(** On the lines of a message that is well-formed UTF-8 the iterator stays
    in the string: each line is counted. *)
Lemma get_grapheme_count_of_decoded (sg : bool) (s : bytes) (cs : list Z) :
  from_bytes s = Some cs ->
  Forall (fun line => exists k, get_grapheme_count sg line = Counted k)
         (split s newline).
Proof.
  intros H. apply from_bytes_decodes, decodes_grouped, grouped_split in H.
  eapply Forall_impl; [|exact H].
  intros line. apply grouped_get_grapheme_count.
Qed.

(** C9: at the failing input, the one-byte string 0xC2, the iterator of
    [get_grapheme_count] steps two bytes forward from offset 0 and ends at
    offset 2, beyond [s.end()] at offset 1; likewise for "caf" followed by a
    lone 0xC3, where it ends at offset 5 of a string of four bytes. *)
Theorem get_grapheme_count_overruns (char_is_signed : bool) :
  get_grapheme_count char_is_signed [xc2] = PastTheEnd 2 /\
  (length [xc2] < 2)%nat /\
  get_grapheme_count char_is_signed [x63; x61; x66; xc3] = PastTheEnd 5.
Proof.
  split; [|split].
  - refine (count_loop_overruns char_is_signed [] xc2 _ _ [] 0%nat);
      [constructor | reflexivity].
  - simpl. lia.
  - refine (count_loop_overruns char_is_signed [x63; x61; x66] xc3 _ _ [] 0%nat);
      [repeat constructor | reflexivity].
Qed.

(** ** A message with one newline *)

Lemma tokens_from_count (s : bytes) (d : byte) (pending : bool) :
  tokens_from s d pending
  = (count_occ Byte.byte_eq_dec s d
     + if pending_after s d pending then 1 else 0)%nat.
Proof.
  revert pending. induction s as [|c s IH]; intros pending.
  - destruct pending; reflexivity.
  - cbn [tokens_from count_occ]. unfold pending_after. cbn [fold_left].
    fold (pending_after s d (negb (Byte.eqb c d))).
    destruct (Byte.eqb c d) eqn:E.
    + apply Byte.byte_dec_bl in E. subst c.
      destruct (Byte.byte_eq_dec d d) as [_|N]; [|contradiction].
      rewrite IH. reflexivity.
    + destruct (Byte.byte_eq_dec c d) as [->|_].
      * assert (Byte.eqb d d = true) by (apply Byte.byte_dec_lb; reflexivity).
        congruence.
      * rewrite IH. reflexivity.
Qed.

Lemma pending_after_last (s : bytes) (d : byte) (pending : bool) :
  s <> [] -> pending_after s d pending = negb (Byte.eqb (last s x00) d).
Proof.
  revert pending. induction s as [|c s IH]; intros pending H; [contradiction|].
  unfold pending_after. cbn [fold_left].
  destruct s as [|c' s]; [reflexivity|].
  fold (pending_after (c' :: s) d (negb (Byte.eqb c d))).
  rewrite IH by discriminate. reflexivity.
Qed.

(** C8, as the claim states it, fails: the message "a" followed by a newline
    holds exactly one newline and splits into one line. *)
Lemma one_newline_counterexample :
  count_occ Byte.byte_eq_dec [x61; x0a] newline = 1%nat /\
  split [x61; x0a] newline = [[x61]] /\
  length (split [x61; x0a] newline) <> 2%nat.
Proof. repeat split. discriminate. Qed.

(** C8 (amended): a message that holds exactly one newline splits into
    exactly two lines when the newline is not its last byte, and into
    exactly one line when it is; and when the message is well-formed UTF-8,
    the converter decodes it, the remapped scalars encode, and the converted
    message splits into the same number of lines. *)
Theorem one_newline_lines (message : bytes) :
  count_occ Byte.byte_eq_dec message newline = 1%nat ->
  length (split message newline)
  = (if Byte.eqb (last message x00) newline then 1 else 2)%nat /\
  forall (from_bytes_what to_bytes_what : bytes) (codepoints : list Z),
    from_bytes message = Some codepoints ->
    utf8_to_codepoints from_bytes_what message = Val codepoints /\
    exists new_message,
      codepoints_to_utf8 to_bytes_what (map cp437_to_unicode codepoints)
      = Val new_message /\
      length (split new_message newline) = length (split message newline).
Proof.
  intros Hcount. split.
  - rewrite split_length, tokens_from_count, Hcount.
    rewrite pending_after_last by (intros ->; discriminate).
    destruct (Byte.eqb (last message x00) newline); reflexivity.
  - intros fw tw codepoints Hdec.
    destruct (remap_keeps_line_count_well_formed fw tw _ _ Hdec)
      as (Hval & new_message & Henc & Hlen).
    split; [exact Hval|]. exists new_message. split; [exact Henc|].
    symmetry. exact Hlen.
Qed.

Lemma one_newline_lines_witness :
  length (split [x61; x0a; xc2; x81] newline) = 2%nat.
Proof.
  apply (proj1 (one_newline_lines [x61; x0a; xc2; x81] eq_refl)).
Defined.

(** ** The report for one remapped character *)

Lemma getline_chars_no_delimiter (s : bytes) (d : byte) :
  Forall (fun b => b <> d) s -> getline_chars s d = (s, []).
Proof.
  induction 1 as [|b s Hb _ IH]; [reflexivity|].
  cbn [getline_chars].
  destruct (Byte.eqb b d) eqn:E; [apply Byte.byte_dec_bl in E; contradiction|].
  rewrite IH. reflexivity.
Qed.

(** A non-empty string without a newline is its own single line. *)
Lemma split_single_line (s : bytes) :
  s <> [] -> Forall (fun b => b <> newline) s -> split s newline = [s].
Proof.
  intros Hne Hall. unfold split. rewrite split_loop_eq.
  destruct s as [|b s]; [contradiction|].
  unfold getline. rewrite (getline_chars_no_delimiter _ _ Hall).
  rewrite split_loop_eq. reflexivity.
Qed.

Lemma to_bytes1_total (c : Z) :
  is_scalar c = true -> exists bs, to_bytes1 c = Some bs.
Proof.
  intros H. unfold to_bytes1. rewrite H. cbn [negb].
  repeat match goal with |- context [if ?t then _ else _] => destruct t end;
    eexists; reflexivity.
Qed.

Lemma bytes_eqb_false (a b : bytes) : a <> b -> bytes_eqb a b = false.
Proof.
  intros H. unfold bytes_eqb.
  destruct (list_eq_dec Byte.byte_eq_dec a b); [contradiction | reflexivity].
Qed.

Lemma ascii_scalar (b : byte) : byte_val b < 0x80 -> is_scalar (byte_val b) = true.
Proof.
  intros H. pose proof (byte_val_range b).
  apply is_scalar_true; [lia | apply not_surrogate_below; lia].
Qed.

(** The UTF-8 form of what the table makes of an ASCII character other
    than the newline: it holds no newline, and it is the character itself
    when the character is printable. *)
Lemma remapped_ascii (a : byte) :
  byte_val a < 0x80 -> a <> newline ->
  exists ra,
    to_bytes1 (cp437_to_unicode (byte_val a)) = Some ra /\
    ra <> [] /\ Forall (fun b => b <> newline) ra /\
    (forall b tl, ra = b :: tl -> tl <> [] -> 0xC0 <= byte_val b) /\
    (0x20 <= byte_val a <= 0x7E -> ra = [a]).
Proof.
  intros Ha Hnl.
  destruct (to_bytes1_total (cp437_to_unicode (byte_val a))) as [ra Hra];
    [apply cp437_scalar, ascii_scalar, Ha|].
  exists ra. split; [exact Hra|].
  assert (Hne : cp437_to_unicode (byte_val a) <> 0x0A).
  { intros E. apply cp437_newline in E. apply Hnl, byte_val_newline, E. }
  destruct (to_bytes1_newline _ _ Hra) as [[E _]|(_ & Hra1 & Hra2)];
    [contradiction|].
  split; [exact Hra1|]. split; [exact Hra2|]. split.
  - intros b tl -> Htl.
    destruct (to_bytes1_cases _ _ Hra) as [[_ E]|(_ & Hf & _)].
    + injection E as _ ->. contradiction.
    + inversion Hf; subst; try lia. contradiction.
  - intros Hp. rewrite cp437_ascii in Hra by (left; exact Hp).
    rewrite to_bytes1_of_1 in Hra by exact Ha. congruence.
Qed.

Lemma count_three (sg : bool) (a c : byte) :
  byte_val a < 0x80 -> byte_val c < 0x80 ->
  get_grapheme_count sg [a; xc2; x81; c] = Counted 3.
Proof.
  intros Ha Hc. unfold get_grapheme_count.
  rewrite count_loop_eq. cbn [nth_error].
  rewrite advance_lead2, (lead2_false_below a) by lia. cbn [Nat.add].
  rewrite count_loop_eq. cbn [nth_error].
  rewrite advance_lead2. change (lead2 xc2) with true. cbn [Nat.add].
  rewrite count_loop_eq. cbn [nth_error].
  rewrite advance_lead2, (lead2_false_below c) by lia. cbn [Nat.add].
  rewrite count_loop_eq. reflexivity.
Qed.

(** C6, as the claim states it, fails: a message whose bytes are "a", the
    raw byte 0x81 and "b" is no UTF-8, the decoder throws, and nothing is
    printed. *)
Lemma raw_byte_counterexample :
  let s0 := {| cout := []; cerr := [] |} in
  check_messages true (lit "from_bytes") (lit "to_bytes") bytes (fun m _ => m)
                 (lit "f.mod") [x61; x81; x62] s0
  = (Exn (range_error (lit "from_bytes")), s0).
Proof. reflexivity. Qed.

(** C6 (amended): for a message of one line whose bytes are an ASCII
    character, the UTF-8 form 0xC2 0x81 of U+0081 and another ASCII
    character, [check_messages] prints the header, one row and an empty
    line; the row holds the original line, 77 spaces that pad its three
    graphemes to column 80, " | ", and the converted line, in which U+00FC
    (0xC3 0xBC) stands for U+0081 and each ASCII character for what the
    table makes of it (itself when it is printable). *)
Theorem report_of_remapped_character
  (char_is_signed : bool) (from_bytes_what to_bytes_what : bytes)
  (module : Type) (get_metadata : module -> bytes -> bytes)
  (filename : bytes) (mod_ : module) (s : io) (a c : byte) :
  byte_val a < 0x80 -> a <> newline ->
  byte_val c < 0x80 -> c <> newline ->
  get_metadata mod_ (lit "message_raw") = [a; xc2; x81; c] ->
  exists ra rc,
    to_bytes1 (cp437_to_unicode (byte_val a)) = Some ra /\
    to_bytes1 (cp437_to_unicode (byte_val c)) = Some rc /\
    (0x20 <= byte_val a <= 0x7E -> ra = [a]) /\
    (0x20 <= byte_val c <= 0x7E -> rc = [c]) /\
    check_messages char_is_signed from_bytes_what to_bytes_what module
                   get_metadata filename mod_ s
    = (Val tt,
       appends s (lit "Difference in " ++ filename ++ lit ":" ++ [newline; newline]
                  ++ report_row [a; xc2; x81; c] 3 (ra ++ [xc3; xbc] ++ rc)
                  ++ endl) []).
Proof.
  intros Ha Hanl Hc Hcnl Hmsg.
  destruct (remapped_ascii a Ha Hanl) as (ra & Hra & Hra_ne & Hra_nl & Hra_lead & Hra_p).
  destruct (remapped_ascii c Hc Hcnl) as (rc & Hrc & Hrc_ne & Hrc_nl & _ & Hrc_p).
  exists ra, rc. repeat (split; [assumption|]).
  set (message := [a; xc2; x81; c]) in *.
  set (new_message := ra ++ [xc3; xbc] ++ rc).
  assert (Hdec : from_bytes message = Some [byte_val a; 0x81; byte_val c]).
  { apply decodes_from_bytes.
    apply (decodes_cons _ [a]); [apply to_bytes1_of_1; exact Ha|].
    apply (decodes_cons 0x81 [xc2; x81]); [reflexivity|].
    apply (decodes_cons _ [c] []); [apply to_bytes1_of_1; exact Hc|].
    constructor. }
  assert (Henc : to_bytes (map cp437_to_unicode [byte_val a; 0x81; byte_val c])
                 = Some new_message).
  { cbn [map to_bytes]. rewrite Hra, Hrc.
    change (to_bytes1 (cp437_to_unicode 0x81)) with (Some [xc3; xbc]).
    rewrite app_nil_r. reflexivity. }
  assert (Hdiff : message <> new_message).
  { unfold message, new_message. intros E.
    destruct ra as [|b [|b' tl]]; [contradiction| |].
    - cbn [app] in E. injection E as _ E _. discriminate.
    - cbn [app] in E. injection E as E _.
      specialize (Hra_lead b (b' :: tl) eq_refl). subst b.
      assert (0xC0 <= byte_val a) by (apply Hra_lead; discriminate). lia. }
  assert (Hlines : split message newline = [message]).
  { apply split_single_line; [discriminate|].
    repeat constructor; try assumption; discriminate. }
  assert (Hnew_lines : split new_message newline = [new_message]).
  { apply split_single_line.
    - unfold new_message. destruct ra; [contradiction | discriminate].
    - unfold new_message. apply Forall_app. split; [exact Hra_nl|].
      constructor; [discriminate|]. constructor; [discriminate | exact Hrc_nl]. }
  unfold check_messages. rewrite Hmsg. fold message.
  unfold message at 1.
  unfold bind at 1, lift at 1. fold message.
  rewrite (utf8_to_codepoints_well_formed _ _ _ Hdec).
  unfold bind at 1, lift at 1.
  rewrite (codepoints_to_utf8_scalars _ _ _ Henc).
  unfold compare_and_report. rewrite Hlines, Hnew_lines.
  cbn [length Nat.eqb negb seq for_each].
  rewrite (bytes_eqb_false _ _ Hdiff).
  unfold report_line. cbn [nth_error].
  rewrite (bytes_eqb_false _ _ Hdiff), andb_false_r.
  unfold message at 1. rewrite (count_three char_is_signed a c Ha Hc).
  change (3 <? 80)%nat with true.
  unfold bind, write_cout, ret, appends, report_row. cbn [cout cerr].
  rewrite app_nil_r. f_equal. f_equal.
  rewrite <- !app_assoc. reflexivity.
Qed.

Lemma report_of_remapped_character_witness :
  check_messages true (lit "from_bytes") (lit "to_bytes") bytes (fun m _ => m)
                 (lit "f.mod") [x61; xc2; x81; x62] {| cout := []; cerr := [] |}
  = (Val tt,
     {| cout := lit "Difference in f.mod:" ++ [newline; newline]
                ++ [x61; xc2; x81; x62] ++ repeat " "%byte 77 ++ lit " | "
                ++ [x61; xc3; xbc; x62] ++ [newline] ++ [newline];
        cerr := [] |}).
Proof.
  destruct (report_of_remapped_character
              true (lit "from_bytes") (lit "to_bytes") bytes (fun m _ => m)
              (lit "f.mod") [x61; xc2; x81; x62] {| cout := []; cerr := [] |}
              x61 x62)
    as (ra & rc & Hra & Hrc & _ & _ & H);
    [reflexivity | discriminate | reflexivity | discriminate | reflexivity |].
  injection Hra as <-. injection Hrc as <-. exact H.
Defined.

(** * Further properties of the code *)

(** ** The table on byte values *)

(** A test that holds of 0, ..., 255 holds of every byte value. *)
Lemma byte_values_forallb (P : Z -> bool) :
  forallb (fun k => P (Z.of_nat k)) (seq 0 256) = true ->
  forall c, 0 <= c <= 0xFF -> P c = true.
Proof.
  intros H c Hc. rewrite forallb_forall in H.
  rewrite <- (Z2Nat.id c) by lia. apply H. apply in_seq. lia.
Qed.

(** X1: on the byte values 0 to 255 the table is one-to-one: two different
    bytes never get the same scalar. *)
Theorem cp437_injective_on_bytes (a b : Z) :
  0 <= a <= 0xFF -> 0 <= b <= 0xFF ->
  cp437_to_unicode a = cp437_to_unicode b -> a = b.
Proof.
  intros Ha Hb H.
  pose proof (byte_values_forallb
    (fun x => forallb (fun j => implb (cp437_to_unicode x =? cp437_to_unicode (Z.of_nat j))
                                      (x =? Z.of_nat j)) (seq 0 256))) as Hall.
  specialize (Hall ltac:(vm_compute; reflexivity) a Ha).
  rewrite forallb_forall in Hall.
  specialize (Hall (Z.to_nat b)). rewrite Z2Nat.id in Hall by lia.
  assert (Hin : In (Z.to_nat b) (seq 0 256)) by (apply in_seq; lia).
  specialize (Hall Hin). rewrite H, Z.eqb_refl in Hall. cbn [implb] in Hall.
  apply Z.eqb_eq. exact Hall.
Qed.

Lemma cp437_injective_on_bytes_witness :
  cp437_to_unicode 0x14 = cp437_to_unicode (0x10 + 0x04) /\ 0x14 = 0x10 + 0x04.
Proof.
  split; [reflexivity|].
  apply (cp437_injective_on_bytes 0x14 (0x10 + 0x04)); [lia | lia | reflexivity].
Defined.

(** Beyond the bytes the table is not one-to-one: the byte 0 and the scalar
    0x2400 both give 0x2400. *)
Example cp437_collision :
  cp437_to_unicode 0x00 = cp437_to_unicode 0x2400.
Proof. reflexivity. Qed.

(** X2: the scalars the table leaves alone are exactly the newline, the
    printable ASCII characters and everything above 0xFF; every other
    32-bit value is changed. *)
Theorem cp437_fixed_points (c : Z) :
  is_uint32 c ->
  (cp437_to_unicode c = c <-> c = 0x0A \/ 0x20 <= c <= 0x7E \/ 0xFF < c).
Proof.
  intros [Hc _]. split.
  - intros Hfix. destruct (Z_lt_le_dec 0xFF c) as [Hbig|Hbyte]; [tauto|].
    pose proof (byte_values_forallb
      (fun x => implb (cp437_to_unicode x =? x)
                      ((x =? 0x0A) || ((0x20 <=? x) && (x <=? 0x7E))))
      ltac:(vm_compute; reflexivity) c (conj Hc Hbyte)) as H.
    cbv beta in H. rewrite Hfix, Z.eqb_refl in H. cbn [implb] in H.
    apply orb_prop in H. destruct H as [H|H].
    + apply Z.eqb_eq in H. tauto.
    + apply andb_prop in H. destruct H as [H1 H2].
      apply Z.leb_le in H1, H2. lia.
  - intros [H|[H|H]].
    + apply cp437_ascii. right. exact H.
    + apply cp437_ascii. left. exact H.
    + apply cp437_above_byte. exact H.
Qed.

Lemma cp437_fixed_points_witness :
  cp437_to_unicode 0x41 = 0x41 <-> 0x41 = 0x0A \/ 0x20 <= 0x41 <= 0x7E \/ 0xFF < 0x41.
Proof.
  apply (cp437_fixed_points 0x41). unfold is_uint32, uint32_max. lia.
Defined.

(** X3: for a byte value the table gives the newline, a printable ASCII
    character or a scalar from 0xA0 to 0x266B: never another control
    character, never DEL, never a surrogate. *)
Theorem cp437_byte_image (c : Z) :
  0 <= c <= 0xFF ->
  cp437_to_unicode c = 0x0A \/
  0x20 <= cp437_to_unicode c <= 0x7E \/
  0xA0 <= cp437_to_unicode c <= 0x266B.
Proof.
  intros Hc.
  pose proof (byte_values_forallb
    (fun x => let y := cp437_to_unicode x in
              (y =? 0x0A) || ((0x20 <=? y) && (y <=? 0x7E))
              || ((0xA0 <=? y) && (y <=? 0x266B)))
    ltac:(vm_compute; reflexivity) c Hc) as H.
  cbv beta zeta in H.
  apply orb_prop in H. destruct H as [H|H]; [apply orb_prop in H; destruct H as [H|H]|].
  - apply Z.eqb_eq in H. tauto.
  - apply andb_prop in H. destruct H as [H1 H2]. apply Z.leb_le in H1, H2. lia.
  - apply andb_prop in H. destruct H as [H1 H2]. apply Z.leb_le in H1, H2. lia.
Qed.

Lemma cp437_byte_image_witness :
  cp437_to_unicode 0x7F = 0x0A \/
  0x20 <= cp437_to_unicode 0x7F <= 0x7E \/
  0xA0 <= cp437_to_unicode 0x7F <= 0x266B.
Proof. apply (cp437_byte_image 0x7F). lia. Defined.

(** ** [split] *)

Lemma split_loop_tokens_bounded (n : nat) :
  forall (s : bytes) (d : byte) (tokens : list bytes),
    (length s <= n)%nat ->
    split_loop s d tokens = tokens ++ split_loop s d [].
Proof.
  induction n as [|n IH]; intros s d tokens Hn;
    rewrite (split_loop_eq s d tokens), (split_loop_eq s d []).
  - destruct s; [cbn; rewrite app_nil_r; reflexivity | simpl in Hn; lia].
  - destruct (getline s d) as [[token rest]|] eqn:Hget;
      [|rewrite app_nil_r; reflexivity].
    pose proof (getline_rest_lt s d token rest Hget).
    rewrite (IH rest d (tokens ++ [token])), (IH rest d ([] ++ [token])) by lia.
    rewrite <- app_assoc. reflexivity.
Qed.

(** [split] one token at a time. *)
Lemma split_step (s : bytes) (d : byte) :
  split s d =
  match s with
  | [] => []
  | _ :: _ => fst (getline_chars s d) :: split (snd (getline_chars s d)) d
  end.
Proof.
  unfold split. rewrite split_loop_eq.
  destruct s as [|c s]; [reflexivity|].
  unfold getline. destruct (getline_chars (c :: s) d) as [token rest] eqn:E.
  cbn [fst snd].
  rewrite (split_loop_tokens_bounded (length rest)) by lia. reflexivity.
Qed.

(** What one [std::getline] does to the unread characters: either the
    delimiter is found, and the token and the rest lie around it, or it is
    not, and the token is all there was. *)
Lemma getline_chars_spec (s : bytes) (d : byte) :
  let (token, rest) := getline_chars s d in
  Forall (fun b => b <> d) token /\
  (s = token ++ d :: rest \/ (s = token /\ rest = [])).
Proof.
  induction s as [|c s IH]; cbn [getline_chars].
  - split; [constructor | right; split; reflexivity].
  - destruct (Byte.eqb c d) eqn:E.
    + apply Byte.byte_dec_bl in E. subst c.
      split; [constructor | left; reflexivity].
    + destruct (getline_chars s d) as [token rest]. destruct IH as [Hall Hs].
      split.
      * constructor; [|exact Hall]. intros ->.
        assert (Byte.eqb d d = true) by (apply Byte.byte_dec_lb; reflexivity).
        congruence.
      * destruct Hs as [->|[-> ->]]; [left | right; split]; reflexivity.
Qed.

(** Induction on a string along the tokens [split] takes from it. *)
Lemma split_ind (d : byte) (P : bytes -> Prop) :
  P [] ->
  (forall s, s <> [] -> P (snd (getline_chars s d)) -> P s) ->
  forall s, P s.
Proof.
  intros Hnil Hstep s.
  assert (H : forall n s, (length s <= n)%nat -> P s).
  { induction n as [|n IH]; intros s' Hn.
    - destruct s'; [exact Hnil | simpl in Hn; lia].
    - destruct s' as [|c s']; [exact Hnil|].
      apply Hstep; [discriminate|]. apply IH.
      pose proof (getline_rest_lt (c :: s') d
                    (fst (getline_chars (c :: s') d))
                    (snd (getline_chars (c :: s') d))) as Hlt.
      unfold getline in Hlt. rewrite <- surjective_pairing in Hlt.
      specialize (Hlt eq_refl). lia. }
  apply (H (length s)). lia.
Qed.

(** X4: no token of [split] holds the delimiter. *)
Theorem split_tokens_without_delimiter (s : bytes) (d : byte) :
  Forall (Forall (fun b => b <> d)) (split s d).
Proof.
  induction s as [|s Hne IH] using (split_ind d); rewrite split_step.
  - constructor.
  - destruct s as [|c s]; [contradiction|].
    pose proof (getline_chars_spec (c :: s) d) as H.
    destruct (getline_chars (c :: s) d) as [token rest]. cbn [fst snd] in *.
    constructor; [apply H | exact IH].
Qed.

Lemma last_app_cons (a : bytes) (c : byte) (r : bytes) :
  last (a ++ c :: r) x00 = last (c :: r) x00.
Proof.
  induction a as [|x a IH]; [reflexivity|].
  cbn [app]. rewrite <- IH. destruct (a ++ c :: r) eqn:E; [|reflexivity].
  destruct a; discriminate.
Qed.

Lemma byte_eqb_false (b d : byte) : b <> d -> Byte.eqb b d = false.
Proof.
  intros H. destruct (Byte.eqb b d) eqn:E; [|reflexivity].
  apply Byte.byte_dec_bl in E. contradiction.
Qed.

Lemma eqb_refl_byte (d : byte) : Byte.eqb d d = true.
Proof. apply Byte.byte_dec_lb. reflexivity. Qed.

Lemma terminated_step (s : bytes) (d : byte) :
  s <> [] ->
  terminated s d
  = fst (getline_chars s d) ++ [d] ++ terminated (snd (getline_chars s d)) d.
Proof.
  intros Hne. pose proof (getline_chars_spec s d) as H.
  destruct (getline_chars s d) as [token rest]. cbn [fst snd].
  destruct H as [Hall [Hs|[Hs Hr]]].
  - subst s. unfold terminated at 1.
    destruct (token ++ d :: rest) eqn:E; [destruct token; discriminate|].
    rewrite <- E. clear E. rewrite last_app_cons.
    destruct rest as [|r rest]; cbn [last terminated].
    + rewrite eqb_refl_byte. reflexivity.
    + change (match rest with [] => r | _ :: _ => last rest x00 end)
        with (last (r :: rest) x00).
      destruct (Byte.eqb (last (r :: rest) x00) d).
      * reflexivity.
      * rewrite <- app_assoc. reflexivity.
  - subst s rest. cbn [terminated]. rewrite app_nil_r.
    destruct token as [|c token]; [contradiction|]. cbn [terminated].
    assert (Hlast : In (last (c :: token) x00) (c :: token)).
    { destruct (exists_last Hne) as (l & x & E). rewrite E.
      rewrite last_last. apply in_or_app. right. left. reflexivity. }
    rewrite Forall_forall in Hall. specialize (Hall _ Hlast).
    rewrite byte_eqb_false by exact Hall. reflexivity.
Qed.

(** X5: writing the tokens of [split] one after the other, each followed
    by the delimiter, gives the string back, with a delimiter added at its
    end when the string is not empty and does not end in one. *)
Theorem split_join (s : bytes) (d : byte) :
  concat (map (fun token => token ++ [d]) (split s d)) = terminated s d.
Proof.
  induction s as [|s Hne IH] using (split_ind d); rewrite split_step.
  - reflexivity.
  - destruct s as [|c s]; [contradiction|].
    cbn [map concat]. rewrite IH, (terminated_step (c :: s) d Hne).
    rewrite <- app_assoc. reflexivity.
Qed.

(** X6: [split] gives one token for each delimiter in the string, and one
    more when the string is not empty and does not end in a delimiter; so
    it gives no token for the empty string only. *)
Theorem split_count (s : bytes) (d : byte) :
  length (split s d)
  = (count_occ Byte.byte_eq_dec s d
     + match s with
       | [] => 0
       | _ :: _ => if Byte.eqb (last s x00) d then 0 else 1
       end)%nat /\
  (split s d = [] <-> s = []).
Proof.
  split.
  - rewrite split_length, tokens_from_count.
    destruct s as [|c s]; [reflexivity|].
    rewrite pending_after_last by discriminate.
    destruct (Byte.eqb (last (c :: s) x00) d); reflexivity.
  - rewrite split_step. destruct s; split; intros H; try reflexivity; discriminate.
Qed.

Lemma getline_chars_app_no_delimiter (a : bytes) (d : byte) (b : bytes) :
  Forall (fun x => x <> d) a -> getline_chars (a ++ d :: b) d = (a, b).
Proof.
  induction 1 as [|x a Hx _ IH]; cbn [app getline_chars].
  - rewrite eqb_refl_byte. reflexivity.
  - rewrite (byte_eqb_false x d Hx), IH. reflexivity.
Qed.

Lemma getline_chars_app (a : bytes) (d : byte) (b : bytes) :
  forall token rest,
    a = token ++ d :: rest ->
    Forall (fun x => x <> d) token ->
    getline_chars (a ++ d :: b) d = (token, rest ++ d :: b).
Proof.
  intros token rest -> Hall. rewrite <- app_assoc. cbn [app].
  apply getline_chars_app_no_delimiter. exact Hall.
Qed.

(** X7: a delimiter cuts the work of [split] in two: the tokens of a string
    are the tokens of the part up to and with any one of its delimiters,
    followed by the tokens of the part after it. *)
Theorem split_app (a b : bytes) (d : byte) :
  split (a ++ d :: b) d = split (a ++ [d]) d ++ split b d.
Proof.
  induction a as [|a Hne IH] using (split_ind d).
  - cbn [app]. rewrite (split_step (d :: b)), (split_step [d]).
    cbn [getline_chars]. rewrite eqb_refl_byte. cbn [fst snd].
    rewrite (split_step []). reflexivity.
  - pose proof (getline_chars_spec a d) as H.
    destruct (getline_chars a d) as [token rest]. cbn [snd] in IH.
    destruct H as [Hall [Ha|[Ha Hr]]].
    + rewrite (split_step (a ++ d :: b)), (split_step (a ++ [d])).
      rewrite (getline_chars_app a d b token rest Ha Hall).
      rewrite (getline_chars_app a d [] token rest Ha Hall).
      cbn [fst snd].
      destruct (a ++ d :: b) eqn:E1; [destruct a; discriminate|].
      destruct (a ++ [d]) eqn:E2; [destruct a; discriminate|].
      rewrite IH. reflexivity.
    + subst token rest.
      rewrite (split_step (a ++ d :: b)), (split_step (a ++ [d])).
      rewrite !getline_chars_app_no_delimiter by exact Hall. cbn [fst snd].
      destruct (a ++ d :: b) eqn:E1; [destruct a; discriminate|].
      destruct (a ++ [d]) eqn:E2; [destruct a; discriminate|].
      rewrite (split_step []). reflexivity.
Qed.

(** ** [get_grapheme_count] *)

Lemma count_loop_signedness_bounded (m : nat) :
  forall (s : bytes) (it n : nat),
    (length s - it <= m)%nat ->
    count_loop true s it n = count_loop false s it n.
Proof.
  induction m as [|m IH]; intros s it n Hm;
    rewrite (count_loop_eq true), (count_loop_eq false);
    destruct (nth_error s it) as [b|] eqn:Hb; try reflexivity.
  - assert (it < length s)%nat by (apply nth_error_Some; congruence). lia.
  - assert (it < length s)%nat by (apply nth_error_Some; congruence).
    rewrite !advance_spec. apply IH.
    destruct (_ && _); lia.
Qed.

(** X8: the count does not depend on whether plain [char] is signed. *)
Theorem get_grapheme_count_signedness (s : bytes) :
  get_grapheme_count true s = get_grapheme_count false s.
Proof.
  unfold get_grapheme_count.
  apply (count_loop_signedness_bounded (length s)). lia.
Qed.

Lemma count_loop_step1 (sg : bool) (pre : bytes) (b : byte) (rest : bytes) (n : nat) :
  lead2 b = false ->
  count_loop sg (pre ++ b :: rest) (length pre) n
  = count_loop sg ((pre ++ [b]) ++ rest) (length (pre ++ [b])) (S n).
Proof.
  intros Hb. rewrite count_loop_eq, nth_error_middle, advance_lead2, Hb.
  rewrite <- app_assoc, length_app. reflexivity.
Qed.

Lemma count_loop_step2 (sg : bool) (pre : bytes) (b b' : byte) (rest : bytes) (n : nat) :
  lead2 b = true ->
  count_loop sg (pre ++ b :: b' :: rest) (length pre) n
  = count_loop sg ((pre ++ [b; b']) ++ rest) (length (pre ++ [b; b'])) (S n).
Proof.
  intros Hb. rewrite count_loop_eq, nth_error_middle, advance_lead2, Hb.
  rewrite <- app_assoc, length_app. reflexivity.
Qed.

Lemma to_bytes1_length (c : Z) (bs : bytes) :
  to_bytes1 c = Some bs ->
  length bs = if c <? 0x80 then 1%nat else if c <? 0x800 then 2%nat
              else if c <? 0x10000 then 3%nat else 4%nat.
Proof.
  unfold to_bytes1. destruct (is_scalar c); [|discriminate]. cbn [negb].
  destruct (c <? 0x80); [|destruct (c <? 0x800); [|destruct (c <? 0x10000)]];
    intros H; apply Some_inj in H; subst bs; reflexivity.
Qed.

(** The form of a scalar by its size. *)
Lemma to_bytes1_by_size (c : Z) (bs : bytes) :
  to_bytes1 c = Some bs ->
  (c < 0x80 /\ exists b0, bs = [b0] /\ byte_val b0 < 0x80) \/
  (0x80 <= c < 0x800 /\
   exists b0 b1, bs = [b0; b1] /\ 0xC0 <= byte_val b0 < 0xE0 /\
                 is_continuation b1 = true) \/
  (0x800 <= c < 0x10000 /\
   exists b0 b1 b2, bs = [b0; b1; b2] /\ 0xE0 <= byte_val b0 < 0xF0 /\
                    is_continuation b1 = true /\ is_continuation b2 = true) \/
  (0x10000 <= c /\
   exists b0 b1 b2 b3, bs = [b0; b1; b2; b3] /\ 0xF0 <= byte_val b0 < 0xF8 /\
                       is_continuation b1 = true /\ is_continuation b2 = true /\
                       is_continuation b3 = true).
Proof.
  intros H. pose proof (to_bytes1_form c bs H) as Hf.
  pose proof (to_bytes1_length c bs H) as Hlen.
  destruct (Z.ltb_spec c 0x80) as [H1|H1];
    [|destruct (Z.ltb_spec c 0x800) as [H2|H2];
      [|destruct (Z.ltb_spec c 0x10000) as [H3|H3]]];
    destruct Hf as [b0 Hb|b0 b1 Hb Hb1|b0 b1 b2 Hb Hb1 Hb2
                   |b0 b1 b2 b3 Hb Hb1 Hb2 Hb3];
    try discriminate Hlen.
  - left. split; [exact H1|]. exists b0. split; [reflexivity | exact Hb].
  - right; left. split; [lia|]. exists b0, b1. repeat split; assumption || lia.
  - right; right; left. split; [lia|].
    exists b0, b1, b2. repeat split; assumption || lia.
  - right; right; right. split; [lia|].
    exists b0, b1, b2, b3. repeat split; assumption || lia.
Qed.

Lemma count_of_decoded (sg : bool) (s : bytes) (cs : list Z) :
  decodes s cs ->
  forall (pre : bytes) (n : nat),
    count_loop sg (pre ++ s) (length pre) n
    = Counted (n + list_sum (map counted_units cs)).
Proof.
  induction 1 as [|c bs rest cs Hc _ IH]; intros pre n.
  - rewrite count_loop_eq, app_nil_r.
    replace (nth_error pre (length pre)) with (@None byte)
      by (symmetry; apply nth_error_None; lia).
    rewrite Nat.eqb_refl. cbn. f_equal. lia.
  - cbn [map list_sum]. unfold counted_units at 1.
    destruct (to_bytes1_by_size c bs Hc)
      as [(Hr & b0 & -> & H0)
         |[(Hr & b0 & b1 & -> & H0 & H1)
          |[(Hr & b0 & b1 & b2 & -> & H0 & H1 & H2)
           |(Hr & b0 & b1 & b2 & b3 & -> & H0 & H1 & H2 & H3)]]];
      cbn [app].
    + rewrite ltb_true by lia.
      rewrite count_loop_step1 by (apply lead2_false_below; lia).
      rewrite IH. f_equal. unfold list_sum. cbn [fold_right]. lia.
    + rewrite ltb_true by lia.
      rewrite count_loop_step2
        by (unfold lead2; rewrite leb_true, ltb_true by lia; reflexivity).
      rewrite IH. f_equal. unfold list_sum. cbn [fold_right]. lia.
    + rewrite ltb_false, ltb_true by lia.
      rewrite count_loop_step1 by (apply lead2_false_above; lia).
      rewrite count_loop_step1 by (apply lead2_false_continuation; assumption).
      rewrite count_loop_step1 by (apply lead2_false_continuation; assumption).
      rewrite IH. f_equal. unfold list_sum. cbn [fold_right]. lia.
    + rewrite !ltb_false by lia.
      rewrite count_loop_step1 by (apply lead2_false_above; lia).
      rewrite count_loop_step1 by (apply lead2_false_continuation; assumption).
      rewrite count_loop_step1 by (apply lead2_false_continuation; assumption).
      rewrite count_loop_step1 by (apply lead2_false_continuation; assumption).
      rewrite IH. f_equal. unfold list_sum. cbn [fold_right]. lia.
Qed.

(** X9: on a string that is UTF-8 the count is returned, and it is the sum
    over the scalars of the string of: 1 for a scalar below 0x800 (one or
    two bytes), 3 for a scalar from 0x800 to 0xFFFF (three bytes) and 4
    for a scalar from 0x10000 on (four bytes).  A character of three or
    four bytes is counted once for each of its bytes. *)
Theorem get_grapheme_count_of_utf8 (sg : bool) (s : bytes) (cs : list Z) :
  from_bytes s = Some cs ->
  get_grapheme_count sg s = Counted (list_sum (map counted_units cs)).
Proof.
  intros H. apply from_bytes_decodes in H.
  apply (count_of_decoded sg s cs H [] 0%nat).
Qed.

Lemma get_grapheme_count_of_utf8_witness :
  get_grapheme_count true [x61; xe2; x82; xac]
  = Counted (list_sum (map counted_units [0x61; 0x20AC])).
Proof.
  apply (get_grapheme_count_of_utf8 true [x61; xe2; x82; xac] [0x61; 0x20AC]).
  reflexivity.
Defined.

(** X10: on a string that is UTF-8 and holds no scalar from 0x800 on, the
    count is the number of scalars of the string. *)
Theorem get_grapheme_count_below_0x800 (sg : bool) (s : bytes) (cs : list Z) :
  from_bytes s = Some cs -> Forall (fun c => c < 0x800) cs ->
  get_grapheme_count sg s = Counted (length cs).
Proof.
  intros H Hall. apply from_bytes_decodes in H.
  unfold get_grapheme_count.
  change (count_loop sg s 0 0) with (count_loop sg ([] ++ s) (length (@nil byte)) 0).
  rewrite (count_of_decoded sg s cs H [] 0%nat). f_equal. cbn [Nat.add].
  clear H. induction Hall as [|c cs Hc _ IH]; [reflexivity|].
  cbn [map length]. rewrite <- IH. unfold counted_units at 1.
  rewrite ltb_true by exact Hc. reflexivity.
Qed.

Lemma get_grapheme_count_below_0x800_witness :
  get_grapheme_count true [x63; x61; x66; xc3; xa9] = Counted (length [0x63; 0x61; 0x66; 0xE9]).
Proof.
  apply (get_grapheme_count_below_0x800 true [x63; x61; x66; xc3; xa9]
           [0x63; 0x61; 0x66; 0xE9]); [reflexivity|].
  repeat constructor.
Defined.

Lemma nth_error_last (s : bytes) (b : byte) :
  nth_error s (length s - 1) = Some b -> last s x00 = b.
Proof.
  intros H. destruct s as [|c s] using rev_ind; [discriminate|].
  clear IHs. rewrite last_last. rewrite length_app in H. cbn [length] in H.
  replace (length s + 1 - 1)%nat with (length s) in H by lia.
  rewrite nth_error_middle in H. congruence.
Qed.

Lemma count_loop_bounds_bounded (sg : bool) (m : nat) :
  forall (s : bytes) (it n : nat),
    (length s - it <= m)%nat -> (it <= length s)%nat ->
    match count_loop sg s it n with
    | Counted k =>
        (n <= k /\ k - n <= length s - it /\ length s - it <= 2 * (k - n))%nat
    | PastTheEnd j =>
        j = S (length s) /\ s <> [] /\ lead2 (last s x00) = true
    end.
Proof.
  induction m as [|m IH]; intros s it n Hm Hit; rewrite count_loop_eq;
    destruct (nth_error s it) as [b|] eqn:Hb.
  - assert (it < length s)%nat by (apply nth_error_Some; congruence). lia.
  - replace (it =? length s)%nat with true by (symmetry; apply Nat.eqb_eq; lia).
    lia.
  - assert (Hlt : (it < length s)%nat) by (apply nth_error_Some; congruence).
    rewrite advance_lead2.
    destruct (lead2 b) eqn:Hlead.
    + destruct (Nat.eq_dec (it + 2) (S (length s))) as [E|E].
      * rewrite count_loop_eq.
        replace (nth_error s (it + 2)) with (@None byte)
          by (symmetry; apply nth_error_None; lia).
        replace (it + 2 =? length s)%nat with false
          by (symmetry; apply Nat.eqb_neq; lia).
        split; [lia|]. split; [intros ->; simpl in Hlt; lia|].
        replace it with (length s - 1)%nat in Hb by lia.
        rewrite (nth_error_last s b Hb). exact Hlead.
      * specialize (IH s (it + 2)%nat (S n) ltac:(lia) ltac:(lia)).
        destruct (count_loop sg s (it + 2) (S n)); [lia | exact IH].
    + specialize (IH s (it + 1)%nat (S n) ltac:(lia) ltac:(lia)).
      destruct (count_loop sg s (it + 1) (S n)); [lia | exact IH].
  - apply nth_error_None in Hb.
    replace (it =? length s)%nat with true by (symmetry; apply Nat.eqb_eq; lia).
    lia.
Qed.

(** X11: for every string, well formed or not: a count that is returned
    lies between half the length of the string and its length; and when
    the iterator leaves the string, it stands exactly one past [s.end()],
    and the last byte of the string is a 110xxxxx byte. *)
Theorem get_grapheme_count_bounds (sg : bool) (s : bytes) :
  match get_grapheme_count sg s with
  | Counted k => (k <= length s /\ length s <= 2 * k)%nat
  | PastTheEnd it =>
      it = S (length s) /\ s <> [] /\ lead2 (last s x00) = true
  end.
Proof.
  unfold get_grapheme_count.
  pose proof (count_loop_bounds_bounded sg (length s) s 0 0
                ltac:(lia) ltac:(lia)) as H.
  destruct (count_loop sg s 0 0); [lia | exact H].
Qed.

(** ** The report of [check_messages] *)

Lemma report_line_row (sg : bool) (lines new_lines : list bytes) (i : nat)
      (line new_line : bytes) (s : io) :
  nth_error lines i = Some line -> nth_error new_lines i = Some new_line ->
  grouped line ->
  report_line sg lines new_lines i s
  = (Val tt,
     appends s (if diff_only && bytes_eqb line new_line then []
                else report_row line (graphemes sg line) new_line) []).
Proof.
  intros Hl Hn Hg. unfold report_line. rewrite Hl, Hn.
  destruct (diff_only && bytes_eqb line new_line).
  - unfold ret. rewrite appends_nil. reflexivity.
  - unfold graphemes.
    destruct (grouped_get_grapheme_count sg line Hg) as [k ->].
    unfold report_row, bind, write_cout, ret, appends. cbn [cout cerr].
    rewrite app_nil_r.
    destruct (Nat.ltb_spec k 80) as [Hk|Hk].
    + cbn [cout cerr]. rewrite <- !app_assoc. reflexivity.
    + replace (80 - k)%nat with 0%nat by lia. cbn [repeat app cout cerr].
      rewrite <- !app_assoc. reflexivity.
Qed.

Lemma report_lines_from (sg : bool) (l2 : list bytes) :
  forall (n2 l1 n1 : list bytes) (s : io),
    length l1 = length n1 -> length l2 = length n2 -> Forall grouped l2 ->
    for_each (seq (length l1) (length l2))
             (report_line sg (l1 ++ l2) (n1 ++ n2)) s
    = (Val tt, appends s (report_rows sg l2 n2) []).
Proof.
  induction l2 as [|l l2 IH]; intros n2 l1 n1 s H1 H2 Hg.
  - cbn [length seq for_each]. unfold ret, report_rows. cbn.
    rewrite appends_nil. reflexivity.
  - destruct n2 as [|n n2]; [discriminate|].
    cbn [length seq for_each]. unfold bind.
    rewrite (report_line_row sg _ _ _ l n).
    + specialize (IH n2 (l1 ++ [l]) (n1 ++ [n])).
      rewrite <- !app_assoc, !length_app in IH. cbn [app length] in IH.
      replace (length l1 + 1)%nat with (S (length l1)) in IH by lia.
      rewrite IH.
      * rewrite appends_appends. unfold report_rows. cbn [combine map concat fst snd].
        reflexivity.
      * lia.
      * cbn [length] in H2. lia.
      * inversion Hg; assumption.
    + rewrite nth_error_app2, Nat.sub_diag by lia. reflexivity.
    + rewrite H1, nth_error_app2, Nat.sub_diag by lia. reflexivity.
    + inversion Hg; assumption.
Qed.

Section ReportFacts.

Variable char_is_signed : bool.
Variable from_bytes_what to_bytes_what : bytes.
Variable module : Type.
Variable get_metadata : module -> bytes -> bytes.

Let check_messages' :=
  check_messages char_is_signed from_bytes_what to_bytes_what module get_metadata.


Lemma compare_and_report_rows (filename message new_message : bytes) (s : io) :
  length (split message newline) = length (split new_message newline) ->
  grouped message -> message <> new_message ->
  compare_and_report char_is_signed filename message new_message s
  = (Val tt,
     appends s (lit "Difference in " ++ filename ++ lit ":" ++ [newline; newline]
                ++ report_rows char_is_signed (split message newline)
                                              (split new_message newline)
                ++ endl) []).
Proof.
  intros Hlen Hg Hne. unfold compare_and_report.
  rewrite Hlen, Nat.eqb_refl. cbn [negb].
  rewrite (bytes_eqb_false _ _ Hne). rewrite <- Hlen.
  unfold bind at 1, write_cout at 1.
  unfold bind at 1.
  pose proof (report_lines_from char_is_signed (split message newline)
                (split new_message newline) [] []) as H.
  cbn [app length] in H. rewrite H;
    [|reflexivity | exact Hlen | apply grouped_split; exact Hg].
  unfold write_cout, appends. cbn [cout cerr].
  rewrite !app_nil_r, <- !app_assoc. reflexivity.
Qed.


End ReportFacts.


Lemma decodes_nil_inv (cs : list Z) : decodes [] cs -> cs = [].
Proof.
  intros H. inversion H as [|c bs rest cs' Hc Hrest Happ]; [reflexivity|].
  apply app_eq_nil in Happ. destruct Happ as [-> _].
  destruct (to_bytes1_newline c [] Hc) as [[_ E]|(_ & E & _)];
    [discriminate | contradiction].
Qed.



(** X13: for a message that is well-formed UTF-8 and that the table
    changes, [check_messages] returns after writing to [std::cout], and only
    there, the header with the file name, then for each pair of lines that
    differ, in order, the row of the pair, then an empty line.  A row is the
    original line, spaces that fill it up to 80 counted graphemes (none
    when the count is 80 or more), " | ", the converted line and a
    newline; pairs of equal lines give no row. *)
Theorem check_messages_report
  (char_is_signed : bool) (from_bytes_what to_bytes_what : bytes)
  (module : Type) (get_metadata : module -> bytes -> bytes)
  (filename : bytes) (mod_ : module) (s : io) (cps : list Z)
  (new_message : bytes) :
  let message := get_metadata mod_ (lit "message_raw") in
  from_bytes message = Some cps ->
  codepoints_to_utf8 to_bytes_what (map cp437_to_unicode cps) = Val new_message ->
  message <> new_message ->
  check_messages char_is_signed from_bytes_what to_bytes_what module
                 get_metadata filename mod_ s
  = (Val tt,
     appends s (lit "Difference in " ++ filename ++ lit ":" ++ [newline; newline]
                ++ report_rows char_is_signed (split message newline)
                                              (split new_message newline)
                ++ endl) []).
Proof.
  intros message Hdec Hval Hne.
  pose proof (from_bytes_decodes _ _ Hdec) as Hd.
  destruct (remap_decodes _ _ Hd) as [new_message' Henc].
  rewrite (codepoints_to_utf8_scalars to_bytes_what _ _ Henc) in Hval.
  assert (new_message' = new_message) by congruence. subst new_message'.
  assert (Hnonempty : message <> []).
  { intros E. rewrite E in Hd. apply decodes_nil_inv in Hd. subst cps.
    cbn in Henc. apply Hne. congruence. }
  rewrite (check_messages_well_formed char_is_signed from_bytes_what to_bytes_what
             module get_metadata filename mod_ s cps new_message)
    by assumption.
  apply compare_and_report_rows;
    [apply (remap_split_length _ _ cps); assumption
    |apply (decodes_grouped _ cps Hd) | exact Hne].
Qed.

Lemma check_messages_report_witness :
  check_messages true (lit "from_bytes") (lit "to_bytes") bytes (fun m _ => m)
                 (lit "f") [x61; x0a; x01] {| cout := []; cerr := [] |}
  = (Val tt,
     {| cout := lit "Difference in f:" ++ [newline; newline]
                ++ [x01] ++ repeat " "%byte 79 ++ lit " | "
                ++ [xe2; x98; xba] ++ [newline] ++ [newline];
        cerr := [] |}).
Proof.
  refine (check_messages_report true (lit "from_bytes") (lit "to_bytes")
            bytes (fun m _ => m) (lit "f") [x61; x0a; x01]
            {| cout := []; cerr := [] |} [0x61; 0x0A; 0x01]
            [x61; x0a; xe2; x98; xba] eq_refl eq_refl _).
  discriminate.
Defined.

(** ** The remap line by line *)

Lemma getline_chars_skip (bs rest : bytes) (d : byte) :
  Forall (fun b => b <> d) bs ->
  getline_chars (bs ++ rest) d
  = (bs ++ fst (getline_chars rest d), snd (getline_chars rest d)).
Proof.
  induction 1 as [|b bs Hb _ IH]; cbn [app getline_chars].
  - destruct (getline_chars rest d); reflexivity.
  - rewrite (byte_eqb_false b d Hb), IH. reflexivity.
Qed.

(** One [std::getline] on a message and on its remap: the two tokens are
    remaps of each other, and so are the two rests. *)
Lemma remap_getline_chars (s : bytes) (cs : list Z) :
  decodes s cs ->
  forall s', decodes s' (map cp437_to_unicode cs) ->
    (exists tc rc,
        decodes (fst (getline_chars s newline)) tc /\
        decodes (fst (getline_chars s' newline)) (map cp437_to_unicode tc) /\
        decodes (snd (getline_chars s newline)) rc /\
        decodes (snd (getline_chars s' newline)) (map cp437_to_unicode rc)) /\
    (s = [] <-> s' = []).
Proof.
  induction 1 as [|c bs rest cs Hc Hrest IH]; intros s' H'.
  - inversion H'. subst. split; [|tauto].
    exists [], []. repeat split; constructor.
  - cbn [map] in H'. inversion H' as [|c' bs' rest' cs' Hc' Hrest']. subst.
    destruct (to_bytes1_newline _ _ Hc) as [[-> ->]|(Hne & Hbs & Hall)].
    + change (to_bytes1 (cp437_to_unicode 0x0A)) with (Some [newline]) in Hc'.
      apply Some_inj in Hc'. subst bs'. cbn [app getline_chars].
      change (Byte.eqb newline newline) with true. cbn [fst snd].
      split; [|split; discriminate].
      exists [], cs. repeat split; try constructor; assumption.
    + destruct (to_bytes1_newline _ _ Hc') as [[E _]|(_ & Hbs' & Hall')];
        [apply cp437_newline in E; contradiction|].
      rewrite !getline_chars_skip by assumption. cbn [fst snd].
      destruct (IH rest' Hrest') as [(tc & rc & Ht & Ht' & Hr & Hr') _].
      split.
      * exists (c :: tc), rc. cbn [map].
        repeat split; try assumption; constructor; assumption.
      * split; intros E; [destruct bs | destruct bs']; try contradiction;
          discriminate.
Qed.

Lemma remap_split_bounded (n : nat) :
  forall (s s' : bytes) (cs : list Z),
    (length s <= n)%nat ->
    decodes s cs -> decodes s' (map cp437_to_unicode cs) ->
    Forall2 (fun line new_line =>
               exists lc, decodes line lc /\
                          decodes new_line (map cp437_to_unicode lc))
            (split s newline) (split s' newline).
Proof.
  induction n as [|n IH]; intros s s' cs Hn Hd Hd';
    destruct (remap_getline_chars s cs Hd s' Hd')
      as [(tc & rc & Ht & Ht' & Hr & Hr') Hnil];
    rewrite (split_step s), (split_step s').
  - destruct s as [|b s]; [|simpl in Hn; lia].
    rewrite (proj1 Hnil eq_refl). constructor.
  - destruct s as [|b s].
    + rewrite (proj1 Hnil eq_refl). constructor.
    + destruct s' as [|b' s'']; [destruct Hnil as [_ Hnil]; discriminate (Hnil eq_refl)|].
      constructor; [exists tc; split; assumption|].
      apply (IH _ _ rc); try assumption.
      pose proof (getline_rest_lt (b :: s) newline
                    (fst (getline_chars (b :: s) newline))
                    (snd (getline_chars (b :: s) newline))) as Hlt.
      unfold getline in Hlt. rewrite <- surjective_pairing in Hlt.
      specialize (Hlt eq_refl). lia.
Qed.

(** X14: for a message that is well-formed UTF-8, the lines of the
    converted message are, one by one and in order, the conversions of the
    lines of the original: each original line is well-formed UTF-8 by
    itself, the converter decodes it, and its scalars sent through the table
    encode to the line at the same place on the other side.  So the row of a
    pair of lines compares a line with its own conversion. *)
Theorem remap_line_by_line (from_bytes_what to_bytes_what : bytes)
        (message : bytes) (cps : list Z) (new_message : bytes) :
  from_bytes message = Some cps ->
  codepoints_to_utf8 to_bytes_what (map cp437_to_unicode cps) = Val new_message ->
  Forall2 (fun line new_line =>
             exists lc,
               from_bytes line = Some lc /\
               utf8_to_codepoints from_bytes_what line = Val lc /\
               codepoints_to_utf8 to_bytes_what (map cp437_to_unicode lc)
               = Val new_line)
          (split message newline) (split new_message newline).
Proof.
  intros Hdec Hval.
  apply from_bytes_decodes in Hdec.
  destruct (remap_decodes _ _ Hdec) as [new_message' Henc].
  rewrite (codepoints_to_utf8_scalars to_bytes_what _ _ Henc) in Hval.
  assert (new_message' = new_message) by congruence. subst new_message'.
  apply to_bytes_decodes in Henc.
  pose proof (remap_split_bounded (length message) message new_message cps
                ltac:(lia) Hdec Henc) as H.
  eapply Forall2_impl; [|exact H].
  intros line new_line (lc & Hl & Hn). exists lc.
  apply decodes_from_bytes in Hl. apply decodes_to_bytes in Hn.
  split; [exact Hl|]. split.
  - apply utf8_to_codepoints_well_formed, Hl.
  - apply codepoints_to_utf8_scalars, Hn.
Qed.

Lemma remap_line_by_line_witness :
  Forall2 (fun line new_line =>
             exists lc,
               from_bytes line = Some lc /\
               utf8_to_codepoints (lit "from_bytes") line = Val lc /\
               codepoints_to_utf8 (lit "to_bytes") (map cp437_to_unicode lc)
               = Val new_line)
          (split [x61; x0a; x01] newline)
          (split [x61; x0a; xe2; x98; xba] newline).
Proof.
  apply (remap_line_by_line (lit "from_bytes") (lit "to_bytes")
           [x61; x0a; x01] [0x61; 0x0A; 0x01] [x61; x0a; xe2; x98; xba]);
    reflexivity.
Defined.

(** ** Files one by one *)

Lemma uniform_lift {A} (r : result A) : uniform (lift r).
Proof.
  exists r, [], []. intros s. unfold lift. rewrite appends_nil. reflexivity.
Qed.

Lemma uniform_ret {A} (a : A) : uniform (ret a).
Proof. apply (uniform_lift (Val a)). Qed.

Lemma uniform_throw {A} (e : exn) : uniform (@throw A e).
Proof. apply (uniform_lift (Exn e)). Qed.

Lemma uniform_undefined {A} : uniform (@undefined A).
Proof. apply (uniform_lift Undefined). Qed.

Lemma uniform_write_cout (text : bytes) : uniform (write_cout text).
Proof.
  exists (Val tt), text, []. intros s. unfold write_cout, appends.
  rewrite app_nil_r. reflexivity.
Qed.

Lemma uniform_write_cerr (text : bytes) : uniform (write_cerr text).
Proof.
  exists (Val tt), [], text. intros s. unfold write_cerr, appends.
  rewrite app_nil_r. reflexivity.
Qed.

Lemma uniform_bind {A B} (m : M A) (k : A -> M B) :
  uniform m -> (forall a, uniform (k a)) -> uniform (bind m k).
Proof.
  intros (r & o1 & e1 & Hm) Hk. destruct r as [a| e |].
  - destruct (Hk a) as (r2 & o2 & e2 & Hka).
    exists r2, (o1 ++ o2), (e1 ++ e2). intros s. unfold bind.
    rewrite Hm, Hka, appends_appends. reflexivity.
  - exists (Exn e), o1, e1. intros s. unfold bind. rewrite Hm. reflexivity.
  - exists Undefined, o1, e1. intros s. unfold bind. rewrite Hm. reflexivity.
Qed.

Lemma uniform_try_catch {A} (body : M A) (handler : exn -> M A) :
  uniform body -> (forall e, uniform (handler e)) ->
  uniform (try_catch body handler).
Proof.
  intros (r & o1 & e1 & Hm) Hh. destruct r as [a| e |].
  - exists (Val a), o1, e1. intros s. unfold try_catch. rewrite Hm. reflexivity.
  - destruct (Hh e) as (r2 & o2 & e2 & Hhe).
    exists r2, (o1 ++ o2), (e1 ++ e2). intros s. unfold try_catch.
    rewrite Hm, Hhe, appends_appends. reflexivity.
  - exists Undefined, o1, e1. intros s. unfold try_catch. rewrite Hm. reflexivity.
Qed.

Lemma uniform_for_each {A} (l : list A) (body : A -> M unit) :
  (forall x, uniform (body x)) -> uniform (for_each l body).
Proof.
  intros H. induction l as [|x l IH]; cbn [for_each].
  - apply uniform_ret.
  - apply uniform_bind; [apply H | intros _; exact IH].
Qed.

Lemma result_unit_dec (r : result unit) : {r = Val tt} + {r <> Val tt}.
Proof.
  destruct r as [[]| |]; [left; reflexivity | right; discriminate
                         | right; discriminate].
Qed.

Section FileFacts.

Variable char_is_signed : bool.
Variable from_bytes_what to_bytes_what : bytes.
Variable module : Type.
Variable open_module : bytes -> exn + module.
Variable get_metadata : module -> bytes -> bytes.

Let process_file' :=
  process_file char_is_signed from_bytes_what to_bytes_what module
               open_module get_metadata.

Lemma uniform_report_line (lines new_lines : list bytes) (i : nat) :
  uniform (report_line char_is_signed lines new_lines i).
Proof.
  unfold report_line.
  destruct (nth_error lines i); [|apply uniform_undefined].
  destruct (nth_error new_lines i); [|apply uniform_undefined].
  destruct (diff_only && _); [apply uniform_ret|].
  destruct (get_grapheme_count _ _); [|apply uniform_undefined].
  apply uniform_bind; [apply uniform_write_cout | intros _].
  apply uniform_bind;
    [destruct (_ <? _)%nat; [apply uniform_write_cout | apply uniform_ret]
    |intros _].
  repeat (apply uniform_bind; [apply uniform_write_cout | intros _]).
  apply uniform_write_cout.
Qed.

Lemma uniform_compare_and_report (filename message new_message : bytes) :
  uniform (compare_and_report char_is_signed filename message new_message).
Proof.
  unfold compare_and_report.
  destruct (negb _); [apply uniform_throw|].
  destruct (bytes_eqb _ _); [apply uniform_ret|].
  apply uniform_bind; [apply uniform_write_cout | intros _].
  apply uniform_bind; [|intros _; apply uniform_write_cout].
  apply uniform_for_each. intros i. apply uniform_report_line.
Qed.

Lemma uniform_check_messages (filename : bytes) (mod_ : module) :
  uniform (check_messages char_is_signed from_bytes_what to_bytes_what module
                          get_metadata filename mod_).
Proof.
  unfold check_messages.
  destruct (get_metadata mod_ (lit "message_raw")); [apply uniform_ret|].
  apply uniform_bind; [apply uniform_lift | intros codepoints].
  apply uniform_bind; [apply uniform_lift | intros new_message].
  apply uniform_compare_and_report.
Qed.

Lemma uniform_process_file (filename : bytes) : uniform (process_file' filename).
Proof.
  unfold process_file', process_file. apply uniform_try_catch.
  - apply uniform_bind; [apply uniform_lift | intros mod_].
    apply uniform_check_messages.
  - intros e. apply uniform_write_cerr.
Qed.

(** What [process_file] adds to the streams does not depend on what they
    hold: for a file on which it returns, it is what the file gives on
    empty streams. *)
Lemma process_file_alone (filename : bytes) (s : io) :
  fst (process_file' filename {| cout := []; cerr := [] |}) = Val tt ->
  process_file' filename s
  = (Val tt,
     appends s (cout (snd (process_file' filename {| cout := []; cerr := [] |})))
               (cerr (snd (process_file' filename {| cout := []; cerr := [] |})))).
Proof.
  destruct (uniform_process_file filename) as (r & out & err & H).
  rewrite (H {| cout := []; cerr := [] |}). cbn [fst snd appends cout cerr app].
  intros ->. apply H.
Qed.

(** A file on which [process_file] does not return stops the loop. *)
Lemma process_file_stops (filename : bytes) (s : io) :
  fst (process_file' filename {| cout := []; cerr := [] |}) <> Val tt ->
  fst (process_file' filename s) = Undefined.
Proof.
  destruct (uniform_process_file filename) as (r & out & err & H).
  rewrite (H {| cout := []; cerr := [] |}), (H s). cbn [fst].
  destruct (process_file_outcome char_is_signed from_bytes_what to_bytes_what
              module open_module get_metadata filename s)
    as (o & e & [[Hs _]|[Hs _]]); fold process_file' in Hs; rewrite H in Hs.
  - intros N. exfalso. apply N. congruence.
  - intros _. congruence.
Qed.

End FileFacts.

(** X15: no exception leaves [process_file], and it writes to one stream
    at most.  It returns with its report, if any, on [std::cout] and
    nothing on [std::cerr]; or it returns with nothing on [std::cout] and,
    on [std::cerr], "can't open ", the file name, ": ", the text of one
    exception and a newline; or the run ends in undefined behaviour with
    output on [std::cout] only. *)
Theorem process_file_report_or_failure
  (char_is_signed : bool) (from_bytes_what to_bytes_what : bytes)
  (module : Type) (open_module : bytes -> exn + module)
  (get_metadata : module -> bytes -> bytes) (filename : bytes) (s : io) :
  let run :=
    process_file char_is_signed from_bytes_what to_bytes_what module
                 open_module get_metadata filename s in
  (exists out, run = (Val tt, appends s out [])) \/
  (exists e,
      run = (Val tt,
             appends s [] (lit "can't open " ++ filename ++ lit ": " ++ what e
                           ++ endl))) \/
  (exists out, run = (Undefined, appends s out [])).
Proof.
  intros run.
  destruct (process_file_outcome char_is_signed from_bytes_what to_bytes_what
              module open_module get_metadata filename s)
    as (out & err & [[Hs [->|[-> [e ->]]]]|[Hs _]]).
  - left. exists out. exact Hs.
  - right. left. exists e. exact Hs.
  - right. right. exists out. exact Hs.
Qed.

(** X16: the files do not touch each other.  When [process_file] returns
    on each file of the run taken alone, what [main] adds to [std::cout],
    and to [std::cerr], is for each file name after the program name, in
    order, what [process_file] writes for that file on empty streams, and
    [main] returns 0; and when it does not return on one of them, [main]
    does not return either. *)
Theorem main_output
  (char_is_signed : bool) (from_bytes_what to_bytes_what : bytes)
  (module : Type) (open_module : bytes -> exn + module)
  (get_metadata : module -> bytes -> bytes) (argv : list bytes) (s : io) :
  let alone f :=
    process_file char_is_signed from_bytes_what to_bytes_what module
                 open_module get_metadata f {| cout := []; cerr := [] |} in
  (Forall (fun f => fst (alone f) = Val tt) (tl argv) ->
   main char_is_signed from_bytes_what to_bytes_what module open_module
        get_metadata argv s
   = (Val 0,
      appends s (concat (map (fun f => cout (snd (alone f))) (tl argv)))
                (concat (map (fun f => cerr (snd (alone f))) (tl argv))))) /\
  (~ Forall (fun f => fst (alone f) = Val tt) (tl argv) ->
   fst (main char_is_signed from_bytes_what to_bytes_what module open_module
             get_metadata argv s) = Undefined).
Proof.
  intros alone. unfold main, bind. split.
  - intros Hall.
    assert (H : forall s,
               for_each (tl argv)
                        (process_file char_is_signed from_bytes_what
                           to_bytes_what module open_module get_metadata) s
               = (Val tt,
                  appends s (concat (map (fun f => cout (snd (alone f))) (tl argv)))
                            (concat (map (fun f => cerr (snd (alone f))) (tl argv))))).
    { induction Hall as [|f files Hf _ IH]; intros s0; cbn [for_each map concat].
      - unfold ret. rewrite appends_nil. reflexivity.
      - unfold bind. rewrite (process_file_alone _ _ _ _ _ _ f s0 Hf).
        rewrite IH, appends_appends. reflexivity. }
    rewrite H. reflexivity.
  - intros Hnot.
    assert (H : forall s,
               fst (for_each (tl argv)
                             (process_file char_is_signed from_bytes_what
                                to_bytes_what module open_module get_metadata) s)
               = Undefined).
    { revert Hnot. induction (tl argv) as [|f files IH]; intros Hnot s0.
      - exfalso. apply Hnot. constructor.
      - cbn [for_each]. unfold bind.
        destruct (result_unit_dec (fst (alone f))) as [Hf|Hf].
        + rewrite (process_file_alone _ _ _ _ _ _ f s0 Hf).
          apply IH. intros Hfiles. apply Hnot. constructor; assumption.
        + pose proof (process_file_stops _ _ _ _ _ _ f s0 Hf) as Hs.
          destruct (process_file _ _ _ _ _ _ f s0) as [r s1].
          cbn [fst] in Hs. subst r. reflexivity. }
    specialize (H s).
    destruct (for_each _ _ s) as [r s1]. cbn [fst] in H. subst r. reflexivity.
Qed.

Lemma main_output_witness :
  main true (lit "from_bytes") (lit "to_bytes") bytes
       (fun f => if bytes_eqb f (lit "bad") then inr [x61; x0a; xc2]
                 else inr [x61; xc2; x81; x62])
       (fun m _ => m) [lit "prog"; lit "ok"; lit "bad"; lit "ok"]
       {| cout := lit "x"; cerr := lit "y" |}
  = (Val 0,
     {| cout := lit "x"
                ++ (lit "Difference in ok:" ++ [newline; newline]
                    ++ [x61; xc2; x81; x62] ++ repeat " "%byte 77 ++ lit " | "
                    ++ [x61; xc3; xbc; x62] ++ [newline; newline])
                ++ (lit "Difference in ok:" ++ [newline; newline]
                    ++ [x61; xc2; x81; x62] ++ repeat " "%byte 77 ++ lit " | "
                    ++ [x61; xc3; xbc; x62] ++ [newline; newline]);
        cerr := lit "y" ++ lit "can't open bad: internal error: size mismatch"
                ++ [newline] |}).
Proof.
  refine (proj1 (main_output true (lit "from_bytes") (lit "to_bytes") bytes
                   (fun f => if bytes_eqb f (lit "bad") then inr [x61; x0a; xc2]
                             else inr [x61; xc2; x81; x62])
                   (fun m _ => m) [lit "prog"; lit "ok"; lit "bad"; lit "ok"]
                   {| cout := lit "x"; cerr := lit "y" |}) _).
  repeat constructor.
Defined.
